(** * parameter-js: dynamically scoped parameters

    A shallow embedding of [src/index.ts], and of the identity check of the
    older [src/index.js], with the properties the specification states of
    them.

    Conventions of the embedding.
    - JavaScript values are first-order: functions and other objects are
      references into a heap, arrays are the list of their items.
    - Code runs in a state-and-exception monad over the module state: the
      heap (which holds, for every parameter, the [guard] and [value]
      variables its closure captured) and the module-level [parameterSet].
    - A guard is taken to be a function of its argument, as its contract
      says: on a value it returns a value or throws, and does nothing
      else.
    - One logical flow of control is followed, so [await thunk()] is the
      outcome of the thunk, a rejected promise being a thrown exception, and
      a rejected result of [parameterize] being [Throw]. *)

From Stdlib Require Import ZArith Lia.
From stdpp Require Import base tactics option list gmap sets strings.

#[local] Set Warnings "-clear-no-such-hyp".

Local Open Scope Z_scope.
Local Open Scope string_scope.
Local Open Scope list_scope.
Local Open Scope nat_scope.

(** * Part I: the embedding *)

(** ** Values and state *)

(** Object identities are heap addresses. *)
Abbreviation loc := nat.

#[warnings="-register-all"]
Inductive value : Type :=
| VUndefined
| VNull
| VBool (b : bool)
| VNum (n : Z)
| VBigInt (n : Z)
| VStr (s : string)
| VSymbol (id : nat)
| VArray (items : list value)
| VRef (l : loc).

Inductive exn : Type :=
| TypeError (msg : string)
| Thrown (payload : value).

(** How an evaluation ends: normally with a result, or by a throw. *)
Inductive completion (A : Type) : Type :=
| Normal (a : A)
| Throw (e : exn).
Arguments Normal {A} a.
Arguments Throw {A} e.

Definition guard_fn := value -> completion value.

(** Heap objects. [Closure guard value] is the function object built by the
    function expression of [makeParameter] (index.ts:65-72) with the two
    variables it closes over; [Function len] is any other function, of the
    given [length]; [Object] is any other object. *)
Inductive obj : Type :=
| Closure (guard : guard_fn) (value : value)
| Function (len : nat)
| Object.

(** [guard_calls] is ghost state: every application of a guard, newest
    first, with the parameter the guard belongs to (for the application
    inside [makeParameter], the parameter under construction). *)
Record state : Type := State {
  heap : list obj;
  parameterSet : gset loc;
  guard_calls : list (loc * value)
}.

Definition initial_state : state :=
  {| heap := []; parameterSet := ∅; guard_calls := [] |}.

(** ** The monad *)

Definition M (A : Type) : Type := state -> completion A * state.

Definition ret {A} (a : A) : M A := fun s => (Normal a, s).

Definition throw {A} (e : exn) : M A := fun s => (Throw e, s).

Definition bind {A B} (m : M A) (k : A -> M B) : M B :=
  fun s => match m s with
           | (Normal a, s') => k a s'
           | (Throw e, s') => (Throw e, s')
           end.

Declare Scope js_scope.
Delimit Scope js_scope with js.
Notation "x <- m ;; k" := (bind m (fun x => k))
  (at level 100, m at next level, right associativity) : js_scope.
Notation "m ;;; k" := (bind m (fun _ => k))
  (at level 100, right associativity) : js_scope.
Local Open Scope js_scope.

(** [try { body } finally { fin }]: [fin] runs on every exit of [body]; when
    [fin] itself throws, its exception replaces the outcome of [body]. *)
Definition try_finally {A} (body : M A) (fin : M unit) : M A :=
  fun s => match body s with
           | (r, s1) => match fin s1 with
                        | (Normal _, s2) => (r, s2)
                        | (Throw e, s2) => (Throw e, s2)
                        end
           end.

(** [try { body } catch (e) { handler e }], for host code. *)
Definition try_catch {A} (body : M A) (handler : exn -> M A) : M A :=
  fun s => match body s with
           | (Normal a, s1) => (Normal a, s1)
           | (Throw e, s1) => handler e s1
           end.

Definition run {A} (m : M A) (s : state) : completion A := fst (m s).
Definition exec {A} (m : M A) (s : state) : state := snd (m s).

(** ** index.ts *)

(** The address of a value known to be a reference. *)
Definition the_ref (v : value) : loc :=
  match v with VRef l => l | _ => 0 end.

Definition typeof_function (s : state) (v : value) : bool :=
  match v with
  | VRef l => match heap s !! l with
              | Some (Closure _ _) | Some (Function _) => true
              | _ => false
              end
  | _ => false
  end.

(** [value.length] of a function; the parameter closure takes a rest
    argument only, so its length is 0. *)
Definition function_length (s : state) (v : value) : nat :=
  match v with
  | VRef l => match heap s !! l with
              | Some (Function len) => len
              | _ => 0
              end
  | _ => 0
  end.

Definition isPair (v : value) : bool :=
  match v with
  | VArray items => Nat.eqb (length items) 2
  | _ => false
  end.

(** [typeof value === "function" && value.length === n] *)
Definition function_of_length (n : nat) (s : state) (v : value) : bool :=
  typeof_function s v && Nat.eqb (function_length s v) n.

Definition isThunk (v : value) : M bool :=
  fun s => (Normal (function_of_length 0 s v), s).

Definition isGuard (v : value) : M bool :=
  fun s => (Normal (function_of_length 1 s v), s).

(** [parameterSet.has(value)]: only an object can be in a [WeakSet]. *)
Definition parameterSet_has (s : state) (v : value) : bool :=
  match v with
  | VRef l => bool_decide (l ∈ parameterSet s)
  | _ => false
  end.

Definition isParameter (v : value) : M bool :=
  fun s => (Normal (parameterSet_has s v), s).

(** A function passed as an argument: the value itself and what calling it
    does. The call is only made after the value passed the type check. *)
Record guard_arg : Type := GuardArg {
  guard_value : value;
  guard_call : guard_fn
}.

Record thunk_arg : Type := ThunkArg {
  thunk_value : value;
  thunk_call : M value
}.

(** Primitive accesses to the variables captured by the closure at [l].
    The function is only called where it exists: the other branch is not
    reached from a state in which [parameterSet] holds closures only. *)
Definition closure_at (l : loc) : M (guard_fn * value) :=
  fun s => match heap s !! l with
           | Some (Closure guard v) => (Normal (guard, v), s)
           | _ => (Throw (TypeError "is not a function"), s)
           end.

Definition store (l : loc) (o : obj) (s : state) : state :=
  {| heap := <[l := o]> (heap s);
     parameterSet := parameterSet s;
     guard_calls := guard_calls s |}.

Definition record_call (l : loc) (x : value) (s : state) : state :=
  {| heap := heap s;
     parameterSet := parameterSet s;
     guard_calls := (l, x) :: guard_calls s |}.

Definition assign_value (l : loc) (v : value) : M unit :=
  fun s => match heap s !! l with
           | Some (Closure guard _) => (Normal tt, store l (Closure guard v) s)
           | _ => (Throw (TypeError "is not a function"), s)
           end.

(** [guard(x)], recorded in the ghost trace. *)
Definition apply_guard (l : loc) (guard : guard_fn) (x : value) : M value :=
  fun s => (guard x, record_call l x s).

(** The body of the parameter function (index.ts:65-72), for the closure
    allocated at [l]. *)
Definition parameter (l : loc) (args : list value) : M value :=
  (if Nat.ltb 0 (length args) then
     let newValue := hd VUndefined args in
     gv <- closure_at l ;;
     v <- apply_guard l (fst gv) newValue ;;
     assign_value l v
   else ret tt) ;;;
  gv <- closure_at l ;;
  ret (snd gv).

(** [f(...args)] for a value [f] that is a parameter; the module calls no
    other function than parameters and the thunk. *)
Definition invoke (f : value) (args : list value) : M value :=
  match f with
  | VRef l => parameter l args
  | _ => throw (TypeError "is not a function")
  end.

Definition default_guard : guard_fn := fun x => Normal x.

Definition alloc (o : obj) : M loc :=
  fun s => (Normal (length (heap s)),
            {| heap := heap s ++ [o];
               parameterSet := parameterSet s;
               guard_calls := guard_calls s |}).

Definition parameterSet_add (l : loc) : M unit :=
  fun s => (Normal tt, {| heap := heap s;
                          parameterSet := {[l]} ∪ parameterSet s;
                          guard_calls := guard_calls s |}).

Definition next_loc : M loc := fun s => (Normal (length (heap s)), s).

(** index.ts:55-61: the [guard] argument, after its default and its check.
    [None], or an explicit [undefined], selects the default guard. *)
Definition checked_guard (guard : option guard_arg) : M guard_fn :=
  match guard with
  | None => ret default_guard
  | Some ga =>
      match guard_value ga with
      | VUndefined => ret default_guard
      | gval =>
          ok <- isGuard gval ;;
          if ok then ret (guard_call ga)
          else throw (TypeError
                        "Expected guard to be a function of one argument")
      end
  end.

(** index.ts:55-77 *)
Definition makeParameter (initialValue : value) (guard : option guard_arg)
  : M value :=
  g <- checked_guard guard ;;
  self <- next_loc ;;
  v <- apply_guard self g initialValue ;;
  l <- alloc (Closure g v) ;;
  parameterSet_add l ;;;
  ret (VRef l).

(** The [Map] of index.ts:117, in insertion order. [Map.prototype.set] on a
    key already present replaces the value and keeps the position. Its keys
    are parameters (a key is set after it passed [isParameter]), so the map
    is keyed by their addresses. *)
Definition Map := list (loc * value).

Fixpoint map_set (k : loc) (v : value) (m : Map) : Map :=
  match m with
  | [] => [(k, v)]
  | (k', v') :: m' =>
      if decide (k' = k) then (k, v) :: m' else (k', v') :: map_set k v m'
  end.

(** [a[i]] on an array; [undefined] elsewhere. Arrays are lists of their
    items: an array of the model has no hole. *)
Definition item (a : value) (i : nat) : value :=
  match a with
  | VArray items => nth i items VUndefined
  | _ => VUndefined
  end.

(** index.ts:118-123 *)
Fixpoint snapshot (parameters : list value) (originalValues : Map) : M Map :=
  match parameters with
  | [] => ret originalValues
  | pr :: rest =>
      let p := item pr 0 in
      ok <- isParameter p ;;
      if ok then
        v <- invoke p [] ;;
        snapshot rest (map_set (the_ref p) v originalValues)
      else throw (TypeError "Expected first item of pair to be a parameter")
  end.

(** index.ts:127-129 *)
Fixpoint rebind (parameters : list value) : M unit :=
  match parameters with
  | [] => ret tt
  | pr :: rest => invoke (item pr 0) [item pr 1] ;;; rebind rest
  end.

(** index.ts:132-134 *)
Fixpoint restore (originalValues : Map) : M unit :=
  match originalValues with
  | [] => ret tt
  | (p, v) :: rest => parameter p [v] ;;; restore rest
  end.

(** index.ts:105-138 *)
Definition parameterize (parameters : value) (thunk : thunk_arg) : M value :=
  match parameters with
  | VArray pairs =>
      if forallb isPair pairs then
        ok <- isThunk (thunk_value thunk) ;;
        if ok then
          originalValues <- snapshot pairs [] ;;
          try_finally
            (rebind pairs ;;; thunk_call thunk)
            (restore originalValues)
        else throw (TypeError "Expected second argument to be a thunk")
      else throw (TypeError "Expected first argument to be an array of pairs")
  | _ => throw (TypeError "Expected first argument to be an array of pairs")
  end.

(** Host code creating a function of its own. *)
Definition new_function (len : nat) : M value :=
  l <- alloc (Function len) ;; ret (VRef l).

Definition new_object : M value :=
  l <- alloc Object ;; ret (VRef l).

(** ** index.js: the identity check by a marker property *)

Module SymbolVariant.

(** index.js:1-3. The three symbols are [VSymbol 0], [VSymbol 1] and
    [VSymbol 2]; own properties are keyed by the symbol's number. *)
Definition IS_PARAMETER_METHOD : nat := 0.
Definition PARAMETER_SECRET : value := VSymbol 1.
Definition METHOD_SECRET : value := VSymbol 2.

(** Heap objects with their own symbol-keyed properties.
    [Closure guard held_value own] is the arrow function of
    index.js:35-42 with the [guard] and [value] it closes over,
    [Method] the arrow function of index.js:44-48, [Function len body own]
    any other function with what a call of it returns, [Object own] any
    other object. *)
Inductive obj : Type :=
| Closure (guard : guard_fn) (held_value : value) (own : gmap nat value)
| Method
| Function (len : nat) (body : list value -> completion value)
           (own : gmap nat value)
| Object (own : gmap nat value).

Definition heap := list obj.
Definition M (A : Type) : Type := heap -> completion A * heap.

(** The own properties of a function; [None] for what is not a
    function. *)
Definition function_own (o : obj) : option (gmap nat value) :=
  match o with
  | Closure _ _ own | Function _ _ own => Some own
  | Method => Some ∅
  | Object _ => None
  end.

Definition own_of (o : obj) : gmap nat value :=
  match o with
  | Closure _ _ own | Function _ _ own | Object own => own
  | Method => ∅
  end.

Definition with_own (own : gmap nat value) (o : obj) : obj :=
  match o with
  | Closure g v _ => Closure g v own
  | Function len body _ => Function len body own
  | Object _ => Object own
  | Method => Method
  end.

Definition is_symbol (v w : value) : bool :=
  match v, w with
  | VSymbol a, VSymbol b => Nat.eqb a b
  | _, _ => false
  end.

(** [f(...args)] *)
Definition call (f : value) (args : list value) : M value :=
  fun h =>
    match f with
    | VRef l =>
        match h !! l with
        | Some Method =>
            (Normal (if is_symbol (hd VUndefined args) PARAMETER_SECRET
                     then METHOD_SECRET else VUndefined), h)
        | Some (Function _ body _) => (body args, h)
        | Some (Closure guard v own) =>
            match args with
            | [] => (Normal v, h)
            | newValue :: _ =>
                match guard newValue with
                | Normal v' => (Normal v', <[l := Closure guard v' own]> h)
                | Throw e => (Throw e, h)
                end
            end
        | _ => (Throw (TypeError "is not a function"), h)
        end
    | _ => (Throw (TypeError "is not a function"), h)
    end.

(** index.js:5-14 *)
Definition isParameter (v : value) : M bool :=
  fun h =>
    match v with
    | VRef l =>
        match h !! l ≫= function_own with
        | Some own =>
            match own !! IS_PARAMETER_METHOD with
            | Some method =>
                match call method [PARAMETER_SECRET] h with
                | (Normal r, h') => (Normal (is_symbol r METHOD_SECRET), h')
                | (Throw e, h') => (Throw e, h')
                end
            | None => (Normal false, h)
            end
        | None => (Normal false, h)
        end
    | _ => (Normal false, h)
    end.

(** index.js:24-26 *)
Definition isGuard (h : heap) (v : value) : bool :=
  match v with
  | VRef l =>
      match h !! l with
      | Some (Function len _ _) => Nat.eqb len 1
      | Some Method => true
      | _ => false
      end
  | _ => false
  end.

(** index.js:28-31: the [guard] argument, after its default and its
    check. *)
Definition checked_guard (h : heap) (guard : option guard_arg)
  : completion guard_fn :=
  match guard with
  | None => Normal default_guard
  | Some ga =>
      match guard_value ga with
      | VUndefined => Normal default_guard
      | gval =>
          if isGuard h gval then Normal (guard_call ga)
          else Throw (TypeError
                        "Expected guard to be a function of one argument")
      end
  end.

(** index.js:28-51. The closure is allocated first, the method second. *)
Definition makeParameter (initialValue : value) (guard : option guard_arg)
  : M value :=
  fun h =>
    match checked_guard h guard with
    | Normal g =>
        match g initialValue with
        | Normal v =>
            let l := length h in
            (Normal (VRef l),
             h ++ [Closure g v {[IS_PARAMETER_METHOD := VRef (S l)]};
                   Method])
        | Throw e => (Throw e, h)
        end
    | Throw e => (Throw e, h)
    end.

(** Host code: [() => {}] and the like. *)
Definition new_function (len : nat) (body : list value -> completion value)
  : M value :=
  fun h => (Normal (VRef (length h)), h ++ [Function len body ∅]).

(** Host code: [Object.assign(target, source)], which copies the own
    enumerable properties of [source], symbol-keyed ones included. *)
Definition object_assign (target source : value) : M value :=
  fun h =>
    match target, source with
    | VRef t, VRef src =>
        match h !! t, h !! src with
        | Some o, Some o' =>
            (Normal target, <[t := with_own (own_of o' ∪ own_of o) o]> h)
        | _, _ => (Normal target, h)
        end
    | _, _ => (Normal target, h)
    end.

(** Host code: [target[Object.getOwnPropertySymbols(source)[0]] = v], for
    a [source] whose only own symbol is the marker. *)
Definition set_marker (target v : value) : M value :=
  fun h =>
    match target with
    | VRef t =>
        match h !! t with
        | Some o =>
            (Normal v,
             <[t := with_own (<[IS_PARAMETER_METHOD := v]> (own_of o)) o]> h)
        | None => (Normal v, h)
        end
    | _ => (Normal v, h)
    end.

Definition bind {A B} (m : M A) (k : A -> M B) : M B :=
  fun h => match m h with
           | (Normal a, h') => k a h'
           | (Throw e, h') => (Throw e, h')
           end.

(** [const p = makeParameter(1); const fake = Object.assign(() => {}, p)] *)
Definition forge : M value :=
  bind (makeParameter (VNum 1) None) (fun p =>
  bind (new_function 0 (fun _ => Normal VUndefined)) (fun fake =>
  object_assign fake p)).

(** [const fake = () => {}; fake[marker] = 42] with the marker symbol read
    off a parameter. *)
Definition forge_not_callable : M value :=
  bind (makeParameter (VNum 1) None) (fun p =>
  bind (new_function 0 (fun _ => Normal VUndefined)) (fun fake =>
  bind (set_marker fake (VNum 42)) (fun _ h => (Normal fake, h)))).

End SymbolVariant.

(** ** Vocabulary of the properties *)

(** *** Discipline of the state

    Two facts hold of every state the module and its callers can build, and
    every computation keeps them:
    - [sound]: [parameterSet] holds exactly the closures built by
      [makeParameter];
    - [guards_kept]: a closure never loses its guard (the [guard] variable
      is never assigned) and is never removed. *)

Definition is_closure (o : option obj) : Prop :=
  match o with Some (Closure _ _) => True | _ => False end.

Definition sound (s : state) : Prop :=
  forall l, l ∈ parameterSet s <-> is_closure (heap s !! l).

Definition guards_kept (s s' : state) : Prop :=
  forall l g u,
    heap s !! l = Some (Closure g u) ->
    exists u', heap s' !! l = Some (Closure g u').

Definition disciplined {A} (m : M A) : Prop :=
  forall s, guards_kept s (exec m s) /\ (sound s -> sound (exec m s)).

Definition stable {A} (m : M A) : Prop :=
  forall s, guards_kept s (exec m s).

(** Host code: what a caller of the module can run. *)
Inductive host : forall {A : Type}, M A -> Prop :=
| host_ret {A} (a : A) : host (ret a)
| host_throw {A} (e : exn) : host (@throw A e)
| host_bind {A B} (m : M A) (k : A -> M B) :
    host m -> (forall a, host (k a)) -> host (bind m k)
| host_try_catch {A} (body : M A) (handler : exn -> M A) :
    host body -> (forall e, host (handler e)) -> host (try_catch body handler)
| host_try_finally {A} (body : M A) (fin : M unit) :
    host body -> host fin -> host (try_finally body fin)
| host_new_function len : host (new_function len)
| host_new_object : host new_object
| host_invoke f args : host (invoke f args)
| host_isParameter v : host (isParameter v)
| host_makeParameter initialValue guard :
    host (makeParameter initialValue guard)
| host_parameterize parameters thunk :
    host (thunk_call thunk) -> host (parameterize parameters thunk).

(** [v] is a function object built by [makeParameter]. *)
Definition built_by_makeParameter (s : state) (v : value) : Prop :=
  exists l g u, v = VRef l /\ heap s !! l = Some (Closure g u).

(** *** What the phases of [parameterize] compute *)

(** What [makeParameter] does, by cases on the guard. *)
Definition made (l : loc) (g : guard_fn) (x v : value) (s : state) : state :=
  {| heap := heap s ++ [Closure g v];
     parameterSet := {[l]} ∪ parameterSet s;
     guard_calls := (l, x) :: guard_calls s |}.

(** The value [p()] returns in [s]. *)
Definition held (s : state) (l : loc) : value :=
  match heap s !! l with
  | Some (Closure _ u) => u
  | _ => VUndefined
  end.

Definition listed (pairs : list value) : list loc :=
  map (fun pr => the_ref (item pr 0)) pairs.

(** What the loop of index.ts:118-123 builds when every first item is a
    parameter of [s]. *)
Fixpoint snapshot_of (s : state) (pairs : list value) (acc : Map) : Map :=
  match pairs with
  | [] => acc
  | pr :: rest =>
      let l := the_ref (item pr 0) in
      snapshot_of s rest (map_set l (held s l) acc)
  end.

Definition all_parameters (s : state) (pairs : list value) : bool :=
  forallb (fun pr => parameterSet_has s (item pr 0)) pairs.

(** The checks of index.ts:109-121 taken together. *)
Definition preconditions (s : state) (parameters : value) (thunk : thunk_arg)
  : bool :=
  match parameters with
  | VArray pairs =>
      forallb isPair pairs
      && function_of_length 0 s (thunk_value thunk)
      && all_parameters s pairs
  | _ => false
  end.

(** *** Histories of one parameter *)

(** The state after the calls [p(v)] for [v] in [vs], one after the other,
    each failure being caught by the caller. *)
Definition set_each (l : loc) (vs : list value) (s : state) : state :=
  fold_left (fun s v => exec (parameter l [v]) s) vs s.

(** The last of [xs] that the guard accepts, [acc] when there is none. *)
Fixpoint last_accepted (g : guard_fn) (xs : list value) (acc : option value)
  : option value :=
  match xs with
  | [] => acc
  | x :: rest =>
      last_accepted g rest
        match g x with Normal _ => Some x | Throw _ => acc end
  end.

(** ** Guards, states and thunks of the scenarios *)

(** [(n) => { if (typeof n !== "number") throw "Expected a number";
              return n + 1 }] *)
Definition successor_guard : guard_fn :=
  fun v => match v with
           | VNum n => Normal (VNum (n + 1))
           | _ => Throw (Thrown (VStr "Expected a number"))
           end.

(** [(n) => { if (typeof n !== "number" || n <= 0) throw "Expected a positive
              number"; return n - 1 }] *)
Definition predecessor_guard : guard_fn :=
  fun v => match v with
           | VNum n => if (0 <? n)%Z then Normal (VNum (n - 1))
                       else Throw (Thrown (VStr "Expected a positive number"))
           | _ => Throw (Thrown (VStr "Expected a positive number"))
           end.

(** [(v) => { if (typeof v !== "number" || v <= 0) throw "not positive";
              return v }] *)
Definition positive_guard : guard_fn :=
  fun v => match v with
           | VNum n => if (0 <? n)%Z then Normal (VNum n)
                       else Throw (Thrown (VStr "not positive"))
           | _ => Throw (Thrown (VStr "not positive"))
           end.

(** [const f = (x) => ...; const p = makeParameter(initialValue, f);
     const t = () => ...] from the initial state: [f] is at address 0, [p] at
    address 1 and [t] at address 2. *)
Definition one_parameter (initialValue : value) (guard : guard_fn) : state :=
  exec (f <- new_function 1 ;;
        makeParameter initialValue
          (Some {| guard_value := f; guard_call := guard |}) ;;;
        new_function 0)
       initial_state.

(** [() => { throw "boom" }], the function at address 2. *)
Definition failing_thunk : thunk_arg :=
  {| thunk_value := VRef 2; thunk_call := throw (Thrown (VStr "boom")) |}.

(** [() => {}], the function at address 2. *)
Definition empty_thunk : thunk_arg :=
  {| thunk_value := VRef 2; thunk_call := ret VUndefined |}.

(** [() => n()] *)
Definition reading_thunk (f n : value) : thunk_arg :=
  {| thunk_value := f; thunk_call := invoke n [] |}.

(** [parameterize([[n, a]], () => parameterize([[n, b]], () => n()))] *)
Definition nested_call (n a b fo fi : value) : M value :=
  parameterize (VArray [VArray [n; a]])
    {| thunk_value := fo;
       thunk_call := parameterize (VArray [VArray [n; b]])
                       (reading_thunk fi n) |}.

(** The same with an outer body that also reads [n] once the inner call is
    over: [async () => { const inner = await parameterize([[n, b]],
    () => n()); return [inner, n()] }]. *)
Definition nested_call_observed (n a b fo fi : value) : M value :=
  parameterize (VArray [VArray [n; a]])
    {| thunk_value := fo;
       thunk_call :=
         inner <- parameterize (VArray [VArray [n; b]])
                    (reading_thunk fi n) ;;
         between <- invoke n [] ;;
         ret (VArray [inner; between]) |}.

(** ** Vocabulary of the further properties *)

(** The value of the last pair of [pairs] whose first item is the parameter
    at [l]; [None] when [l] is not listed. *)
Fixpoint last_bound (pairs : list value) (l : loc) : option value :=
  match pairs with
  | [] => None
  | pr :: rest =>
      match last_bound rest l with
      | Some v => Some v
      | None =>
          if decide (the_ref (item pr 0) = l) then Some (item pr 1) else None
      end
  end.

(** The setter calls of the loop of index.ts:127-129, in order. *)
Definition bound_calls (pairs : list value) : list (loc * value) :=
  map (fun pr => (the_ref (item pr 0), item pr 1)) pairs.

(** The guards of the parameters listed in [pairs] accept the values bound
    to them. *)
Definition bindings_accepted (s : state) (pairs : list value) : Prop :=
  forall pr g c,
    pr ∈ pairs ->
    heap s !! the_ref (item pr 0) = Some (Closure g c) ->
    exists w, g (item pr 1) = Normal w.

(** The guards of the parameters listed in [pairs] accept the values the
    parameters hold in [s]. *)
Definition held_accepted (s : state) (pairs : list value) : Prop :=
  forall l g u,
    l ∈ listed pairs -> heap s !! l = Some (Closure g u) ->
    exists w, g u = Normal w.

(** [m] leaves the object at [l] as it is. *)
Definition leaves {A} (m : M A) (l : loc) : Prop :=
  forall s, heap (exec m s) !! l = heap s !! l.

(** [const f1 = ...; const p = makeParameter(u1, f1); const f2 = ...;
     const q = makeParameter(u2, f2); const t = () => ...;
     const t' = () => ...] from the initial state: [p] is at address 1, [q]
    at address 3, [t] at address 4 and [t'] at address 5. *)
Definition two_parameters (u1 u2 : value) (g1 g2 : guard_fn) : state :=
  exec (f1 <- new_function 1 ;;
        makeParameter u1 (Some {| guard_value := f1; guard_call := g1 |}) ;;;
        f2 <- new_function 1 ;;
        makeParameter u2 (Some {| guard_value := f2; guard_call := g2 |}) ;;;
        new_function 0 ;;;
        new_function 0)
       initial_state.

(** Every parameter of [s] holds a value that its guard returned. *)
Definition validated (s : state) : Prop :=
  forall l g u,
    heap s !! l = Some (Closure g u) -> exists x, g x = Normal u.

(** [m] keeps the property [P] of states. *)
Definition preserves {A} (P : state -> Prop) (m : M A) : Prop :=
  forall s, P s -> P (exec m s).

(** * Part II: properties *)

(** ** Equations of the parameter function *)

Lemma lookup_store_eq l o s :
  l < length (heap s) -> heap (store l o s) !! l = Some o.
Proof. intros Hl. simpl. by apply list_lookup_insert_eq. Qed.

Lemma lookup_store_ne l l' o s :
  l <> l' -> heap (store l o s) !! l' = heap s !! l'.
Proof. intros Hne. simpl. by apply list_lookup_insert_ne. Qed.

Lemma parameter_get l g u s :
  heap s !! l = Some (Closure g u) ->
  parameter l [] s = (Normal u, s).
Proof.
  intros Hl. unfold parameter, bind, closure_at, ret. simpl. by rewrite Hl.
Qed.

Lemma parameter_set_ok l g u x rest w s :
  heap s !! l = Some (Closure g u) ->
  g x = Normal w ->
  parameter l (x :: rest) s
  = (Normal w, store l (Closure g w) (record_call l x s)).
Proof.
  intros Hl Hg.
  unfold parameter, bind, closure_at, apply_guard, assign_value, ret.
  simpl. rewrite Hl. simpl. rewrite Hg. simpl. rewrite Hl. simpl.
  rewrite list_lookup_insert_eq by (by eapply lookup_lt_Some).
  done.
Qed.

Lemma parameter_set_throw l g u x rest e s :
  heap s !! l = Some (Closure g u) ->
  g x = Throw e ->
  parameter l (x :: rest) s = (Throw e, record_call l x s).
Proof.
  intros Hl Hg.
  unfold parameter, bind, closure_at, apply_guard, assign_value, ret.
  simpl. rewrite Hl. simpl. by rewrite Hg.
Qed.

Lemma parameter_no_closure l args s :
  ~ is_closure (heap s !! l) ->
  parameter l args s = (Throw (TypeError "is not a function"), s).
Proof.
  intros Hl. unfold parameter, bind, closure_at, ret.
  destruct args as [|x rest]; simpl;
    destruct (heap s !! l) as [[g u| |]|]; simpl in *; try done; tauto.
Qed.

(** ** Every computation is disciplined *)

Lemma guards_kept_refl s : guards_kept s s.
Proof. intros l g u Hl. eauto. Qed.

Lemma guards_kept_trans s1 s2 s3 :
  guards_kept s1 s2 -> guards_kept s2 s3 -> guards_kept s1 s3.
Proof.
  intros H12 H23 l g u Hl.
  destruct (H12 _ _ _ Hl) as [u' Hl']. eauto.
Qed.

Lemma disciplined_stable {A} (m : M A) : disciplined m -> stable m.
Proof. intros Hm s. apply Hm. Qed.

Lemma sound_initial : sound initial_state.
Proof.
  intros l. simpl. set_solver.
Qed.

Lemma disciplined_pure {A} (m : M A) :
  (forall s, exec m s = s) -> disciplined m.
Proof.
  intros Hm s. rewrite Hm. split; [apply guards_kept_refl | done].
Qed.

Lemma disciplined_ret {A} (a : A) : disciplined (ret a).
Proof. by apply disciplined_pure. Qed.

Lemma disciplined_throw {A} e : disciplined (@throw A e).
Proof. by apply disciplined_pure. Qed.

Lemma disciplined_bind {A B} (m : M A) (k : A -> M B) :
  disciplined m -> (forall a, disciplined (k a)) -> disciplined (bind m k).
Proof.
  intros Hm Hk s. specialize (Hm s). unfold exec, bind in *.
  destruct (m s) as [[a|e] s1]; simpl in *; [|done].
  destruct (Hk a s1) as [Hg Hs]. destruct Hm as [Hg1 Hs1].
  split; [by eapply guards_kept_trans | auto].
Qed.

Lemma disciplined_try_finally {A} (body : M A) (fin : M unit) :
  disciplined body -> disciplined fin -> disciplined (try_finally body fin).
Proof.
  intros Hb Hf s. specialize (Hb s). unfold exec, try_finally in *.
  destruct (body s) as [r s1]; simpl in *.
  specialize (Hf s1). unfold exec in Hf.
  destruct (fin s1) as [[[]|e] s2]; simpl in *;
    (split; [eapply guards_kept_trans; [apply Hb | apply Hf] | intros; apply Hf, Hb; done]).
Qed.

Lemma disciplined_try_catch {A} (body : M A) (handler : exn -> M A) :
  disciplined body -> (forall e, disciplined (handler e)) ->
  disciplined (try_catch body handler).
Proof.
  intros Hb Hh s. specialize (Hb s). unfold exec, try_catch in *.
  destruct (body s) as [[a|e] s1]; simpl in *; [done|].
  destruct (Hh e s1) as [Hg Hs]. destruct Hb as [Hg1 Hs1].
  split; [by eapply guards_kept_trans | auto].
Qed.

Lemma disciplined_parameter l args : disciplined (parameter l args).
Proof.
  intros s.
  destruct (heap s !! l) as [[g u| |]|] eqn:Hl.
  2-4: unfold exec; rewrite parameter_no_closure by (rewrite Hl; simpl; tauto);
       simpl; (split; [apply guards_kept_refl | done]).
  destruct args as [|x rest].
  { unfold exec. erewrite parameter_get by done.
    split; [apply guards_kept_refl | done]. }
  destruct (g x) as [w|e] eqn:Hg; unfold exec.
  - erewrite parameter_set_ok by done. simpl. split.
    + intros l' g' u' Hl'. simpl.
      destruct (decide (l = l')) as [<-|Hne].
      * rewrite list_lookup_insert_eq by (by eapply lookup_lt_Some).
        rewrite Hl in Hl'. injection Hl' as <- <-. eauto.
      * rewrite list_lookup_insert_ne by done. eauto.
    + intros Hs l'. simpl. rewrite (Hs l').
      destruct (decide (l = l')) as [<-|Hne].
      * rewrite list_lookup_insert_eq by (by eapply lookup_lt_Some).
        by rewrite Hl.
      * by rewrite list_lookup_insert_ne by done.
  - erewrite parameter_set_throw by done. simpl.
    split; [intros l' g' u' Hl'; simpl; eauto | intros Hs; exact Hs].
Qed.

Lemma disciplined_invoke f args : disciplined (invoke f args).
Proof.
  destruct f; simpl;
    first [apply disciplined_parameter | apply disciplined_throw].
Qed.

Lemma disciplined_isParameter v : disciplined (isParameter v).
Proof. by apply disciplined_pure. Qed.

Lemma disciplined_isThunk v : disciplined (isThunk v).
Proof. by apply disciplined_pure. Qed.

Lemma disciplined_isGuard v : disciplined (isGuard v).
Proof. by apply disciplined_pure. Qed.

Lemma checked_guard_state guard s : exec (checked_guard guard) s = s.
Proof.
  unfold checked_guard, exec.
  destruct guard as [[gv gc]|]; [|done].
  destruct gv; try done; simpl;
    unfold bind, isGuard; simpl;
    match goal with |- context [if ?b then _ else _] => by destruct b end.
Qed.

Lemma makeParameter_unfold initialValue guard s :
  makeParameter initialValue guard s
  = match run (checked_guard guard) s with
    | Throw e => (Throw e, s)
    | Normal g =>
        let l := length (heap s) in
        match g initialValue with
        | Normal v => (Normal (VRef l), made l g initialValue v s)
        | Throw e => (Throw e, record_call l initialValue s)
        end
    end.
Proof.
  pose proof (checked_guard_state guard s) as Hs.
  unfold makeParameter, run, exec, bind in *.
  destruct (checked_guard guard s) as [[g|e] s1]; simpl in *; subst s1;
    [|done].
  unfold next_loc, apply_guard. simpl.
  by destruct (g initialValue).
Qed.

Lemma disciplined_makeParameter initialValue guard :
  disciplined (makeParameter initialValue guard).
Proof.
  intros s. unfold exec. rewrite makeParameter_unfold.
  destruct (run (checked_guard guard) s) as [g|e]; simpl;
    [|split; [apply guards_kept_refl | done]].
  destruct (g initialValue) as [v|e]; simpl.
  - split.
    + intros l g' u Hl. simpl. exists u. by apply lookup_app_l_Some.
    + intros Hs l. simpl.
      destruct (decide (l = length (heap s))) as [->|Hne].
      * rewrite list_lookup_middle by done. simpl. set_solver.
      * rewrite elem_of_union, elem_of_singleton, (Hs l).
        destruct (decide (l < length (heap s))).
        -- rewrite lookup_app_l by done. tauto.
        -- rewrite (lookup_ge_None_2 (heap s)) by lia.
           rewrite lookup_ge_None_2 by (rewrite length_app; simpl; lia).
           simpl. tauto.
  - split; [intros l g' u Hl; simpl; eauto | intros Hs; exact Hs].
Qed.

Lemma disciplined_alloc_other (o : obj) :
  ~ is_closure (Some o) ->
  disciplined (l <- alloc o ;; ret (VRef l)).
Proof.
  intros Ho s. unfold exec, bind, alloc, ret. simpl. split.
  - intros l g u Hl. simpl. exists u. by apply lookup_app_l_Some.
  - intros Hs l. simpl. rewrite (Hs l).
    destruct (decide (l < length (heap s))).
    + by rewrite lookup_app_l by done.
    + rewrite (lookup_ge_None_2 (heap s)) by lia.
      destruct (decide (l = length (heap s))) as [->|Hne].
      * rewrite list_lookup_middle by done. simpl in *. tauto.
      * rewrite lookup_ge_None_2 by (rewrite length_app; simpl; lia). done.
Qed.

Lemma disciplined_new_function len : disciplined (new_function len).
Proof. apply disciplined_alloc_other. simpl. tauto. Qed.

Lemma disciplined_new_object : disciplined new_object.
Proof. apply disciplined_alloc_other. simpl. tauto. Qed.

Lemma disciplined_snapshot parameters originalValues :
  disciplined (snapshot parameters originalValues).
Proof.
  revert originalValues.
  induction parameters as [|pr rest IH]; intros ov; simpl.
  - apply disciplined_ret.
  - apply disciplined_bind; [apply disciplined_isParameter|].
    intros [|]; [|apply disciplined_throw].
    apply disciplined_bind; [apply disciplined_invoke | intros v; apply IH].
Qed.

Lemma disciplined_rebind parameters : disciplined (rebind parameters).
Proof.
  induction parameters as [|pr rest IH]; simpl.
  - apply disciplined_ret.
  - apply disciplined_bind; [apply disciplined_invoke | intros _; apply IH].
Qed.

Lemma disciplined_restore originalValues : disciplined (restore originalValues).
Proof.
  induction originalValues as [|[p v] rest IH]; simpl.
  - apply disciplined_ret.
  - apply disciplined_bind; [apply disciplined_parameter | intros _; apply IH].
Qed.

Lemma disciplined_parameterize parameters thunk :
  disciplined (thunk_call thunk) -> disciplined (parameterize parameters thunk).
Proof.
  intros Hth. unfold parameterize.
  destruct parameters; try apply disciplined_throw.
  destruct (forallb isPair items); [|apply disciplined_throw].
  apply disciplined_bind; [apply disciplined_isThunk|].
  intros [|]; [|apply disciplined_throw].
  apply disciplined_bind; [apply disciplined_snapshot|].
  intros ov. apply disciplined_try_finally; [|apply disciplined_restore].
  apply disciplined_bind; [apply disciplined_rebind | done].
Qed.

Create HintDb discipline.

#[local] Hint Resolve disciplined_ret disciplined_throw disciplined_bind
  disciplined_try_catch disciplined_try_finally disciplined_new_function
  disciplined_new_object disciplined_invoke disciplined_isParameter
  disciplined_makeParameter disciplined_parameterize : discipline.

Lemma host_disciplined {A} (m : M A) : host m -> disciplined m.
Proof. induction 1; eauto with discipline. Qed.

Lemma host_stable {A} (m : M A) : host m -> stable m.
Proof. intros Hm. by apply disciplined_stable, host_disciplined. Qed.

Lemma host_reaches_sound {A} (m : M A) :
  host m -> sound (exec m initial_state).
Proof. intros Hm. apply (host_disciplined m Hm), sound_initial. Qed.

Lemma stable_bind {A B} (m : M A) (k : A -> M B) :
  stable m -> (forall a, stable (k a)) -> stable (bind m k).
Proof.
  intros Hm Hk s. specialize (Hm s). unfold exec, bind in *.
  destruct (m s) as [[a|e] s1]; simpl in *; [|done].
  eapply guards_kept_trans; [done | apply Hk].
Qed.

Lemma sound_set s p g u w v :
  sound s -> heap s !! p = Some (Closure g u) ->
  sound (store p (Closure g w) (record_call p v s)).
Proof.
  intros Hs Hp l. simpl. rewrite (Hs l).
  destruct (decide (p = l)) as [<-|Hne].
  - rewrite list_lookup_insert_eq by (by eapply lookup_lt_Some).
    by rewrite Hp.
  - by rewrite list_lookup_insert_ne by done.
Qed.

Lemma function_of_length_store k s p g u w v f :
  heap s !! p = Some (Closure g u) ->
  function_of_length k (store p (Closure g w) (record_call p v s)) f
  = function_of_length k s f.
Proof.
  intros Hp. destruct f as [| | | | | | | |l]; try done.
  unfold function_of_length, typeof_function, function_length. simpl.
  destruct (decide (p = l)) as [<-|Hne].
  - rewrite list_lookup_insert_eq by (by eapply lookup_lt_Some).
    by rewrite Hp.
  - by rewrite list_lookup_insert_ne by done.
Qed.

Lemma one_parameter_sound initialValue guard :
  sound (one_parameter initialValue guard).
Proof.
  apply host_reaches_sound.
  apply host_bind; [apply host_new_function | intros f].
  apply host_bind; [apply host_makeParameter | intros _].
  apply host_new_function.
Qed.

Lemma two_parameters_sound u1 u2 g1 g2 : sound (two_parameters u1 u2 g1 g2).
Proof.
  apply host_reaches_sound.
  repeat (apply host_bind; [first [apply host_new_function
                                  | apply host_makeParameter] | intros ?]).
  apply host_new_function.
Qed.

(** ** The snapshot map *)

Lemma map_set_keys k v m l :
  l ∈ (map_set k v m).*1 <-> l = k \/ l ∈ m.*1.
Proof.
  induction m as [|[k' v'] m IH]; simpl.
  - rewrite list_elem_of_singleton. set_solver.
  - destruct (decide (k' = k)) as [->|Hne]; simpl;
      rewrite !elem_of_cons; [tauto|]. rewrite IH. tauto.
Qed.

Lemma map_set_NoDup k v m : NoDup m.*1 -> NoDup (map_set k v m).*1.
Proof.
  induction m as [|[k' v'] m IH]; simpl; intros Hnd.
  - apply NoDup_singleton.
  - apply NoDup_cons in Hnd as [Hk' Hnd].
    destruct (decide (k' = k)) as [->|Hne]; simpl.
    + by apply NoDup_cons.
    + apply NoDup_cons. split; [|auto].
      rewrite map_set_keys. intros [->|?]; done.
Qed.

Lemma map_set_elem k v m l u :
  NoDup m.*1 ->
  (l, u) ∈ map_set k v m <-> (l = k /\ u = v) \/ (l <> k /\ (l, u) ∈ m).
Proof.
  induction m as [|[k' v'] m IH]; simpl; intros Hnd.
  - rewrite list_elem_of_singleton. split.
    + intros [= -> ->]. auto.
    + intros [[-> ->]|[_ H]]; [done|]. by apply elem_of_nil in H.
  - apply NoDup_cons in Hnd as [Hk' Hnd].
    destruct (decide (k' = k)) as [->|Hne]; rewrite !elem_of_cons.
    + split.
      * intros [[= -> ->]|Hin]; [auto|]. right. split; [|auto].
        intros ->. apply Hk'. apply list_elem_of_fmap. by exists (k, u).
      * intros [[-> ->]|[Hne [[= ? ?]|Hin]]]; auto. congruence.
    + rewrite IH by done. split.
      * intros [[= -> ->]|[[-> ->]|[? ?]]]; auto.
      * intros [[-> ->]|[? [[= -> ->]|?]]]; auto.
Qed.

Lemma snapshot_of_spec s pairs acc :
  NoDup acc.*1 ->
  (forall l u, (l, u) ∈ acc -> u = held s l) ->
  NoDup (snapshot_of s pairs acc).*1
  /\ (forall l, l ∈ (snapshot_of s pairs acc).*1
                <-> l ∈ acc.*1 \/ l ∈ listed pairs)
  /\ (forall l u, (l, u) ∈ snapshot_of s pairs acc -> u = held s l).
Proof.
  revert acc. induction pairs as [|pr rest IH]; simpl; intros acc Hnd Hacc.
  - split; [done|]. split; [|done]. intros l. set_solver.
  - destruct (IH (map_set (the_ref (item pr 0))
                          (held s (the_ref (item pr 0))) acc))
      as (Hnd' & Hkeys & Hvals).
    + by apply map_set_NoDup.
    + intros l u. rewrite map_set_elem by done.
      intros [[-> ->]|[_ Hin]]; auto.
    + split; [done|]. split; [|done].
      intros l. rewrite Hkeys, map_set_keys, elem_of_cons. tauto.
Qed.

Lemma snapshot_of_keys s pairs l :
  l ∈ (snapshot_of s pairs []).*1 <-> l ∈ listed pairs.
Proof.
  destruct (snapshot_of_spec s pairs []) as (_ & Hkeys & _).
  - apply NoDup_nil_2.
  - intros ? ? H. by apply elem_of_nil in H.
  - rewrite Hkeys. simpl. set_solver.
Qed.

Lemma snapshot_of_NoDup s pairs : NoDup (snapshot_of s pairs []).*1.
Proof.
  apply snapshot_of_spec; [apply NoDup_nil_2|].
  intros ? ? H. by apply elem_of_nil in H.
Qed.

Lemma snapshot_of_held s pairs l u :
  (l, u) ∈ snapshot_of s pairs [] -> u = held s l.
Proof.
  apply snapshot_of_spec; [apply NoDup_nil_2|].
  intros ? ? H. by apply elem_of_nil in H.
Qed.

Lemma snapshot_of_listed s pairs l :
  l ∈ listed pairs -> (l, held s l) ∈ snapshot_of s pairs [].
Proof.
  intros Hl. apply snapshot_of_keys with (s := s) in Hl.
  apply list_elem_of_fmap in Hl as [[l' u] [-> Hin]]. simpl.
  by rewrite <- (snapshot_of_held _ _ _ _ Hin).
Qed.

(** ** The phases of [parameterize] *)

Lemma parameterSet_has_closure s v :
  sound s -> parameterSet_has s v = true ->
  exists l g u, v = VRef l /\ heap s !! l = Some (Closure g u).
Proof.
  intros Hs Hv. destruct v; try done. simpl in Hv.
  apply bool_decide_eq_true in Hv. apply Hs in Hv.
  destruct (heap s !! l) as [[g u| |]|] eqn:Hl; try done. eauto.
Qed.

Lemma closure_in_parameterSet s l g u :
  sound s -> heap s !! l = Some (Closure g u) ->
  parameterSet_has s (VRef l) = true.
Proof.
  intros Hs Hl. simpl. apply bool_decide_eq_true, Hs. by rewrite Hl.
Qed.

Lemma snapshot_state parameters originalValues s :
  exec (snapshot parameters originalValues) s = s.
Proof.
  revert originalValues.
  induction parameters as [|pr rest IH]; intros ov; [done|].
  unfold exec in *. simpl. unfold bind, isParameter.
  destruct (parameterSet_has s (item pr 0)); [|done].
  destruct (item pr 0) as [| | | | | | | |l]; simpl; try done.
  destruct (heap s !! l) as [[g u| |]|] eqn:Hl.
  - erewrite parameter_get by done. apply IH.
  - rewrite parameter_no_closure by (rewrite Hl; simpl; tauto). done.
  - rewrite parameter_no_closure by (rewrite Hl; simpl; tauto). done.
  - rewrite parameter_no_closure by (rewrite Hl; simpl; tauto). done.
Qed.

Lemma snapshot_valid s parameters originalValues :
  sound s -> all_parameters s parameters = true ->
  snapshot parameters originalValues s
  = (Normal (snapshot_of s parameters originalValues), s).
Proof.
  intros Hs. revert originalValues.
  induction parameters as [|pr rest IH]; intros ov Hall; [done|].
  simpl in Hall. apply andb_true_iff in Hall as [Hp Hrest].
  simpl. unfold bind, isParameter. rewrite Hp.
  destruct (parameterSet_has_closure _ _ Hs Hp) as (l & g & u & -> & Hl).
  simpl. erewrite parameter_get by done.
  unfold held. rewrite Hl. by apply IH.
Qed.

Lemma snapshot_invalid s parameters originalValues :
  sound s -> all_parameters s parameters = false ->
  snapshot parameters originalValues s
  = (Throw (TypeError "Expected first item of pair to be a parameter"), s).
Proof.
  intros Hs. revert originalValues.
  induction parameters as [|pr rest IH]; intros ov Hall; [done|].
  simpl in Hall. simpl. unfold bind, isParameter.
  destruct (parameterSet_has s (item pr 0)) eqn:Hp; [|done].
  destruct (parameterSet_has_closure _ _ Hs Hp) as (l & g & u & -> & Hl).
  simpl. erewrite parameter_get by done. by apply IH.
Qed.

Lemma parameterize_valid s pairs thunk :
  sound s -> preconditions s (VArray pairs) thunk = true ->
  parameterize (VArray pairs) thunk s
  = try_finally (rebind pairs ;;; thunk_call thunk)
                (restore (snapshot_of s pairs [])) s.
Proof.
  intros Hs Hpre. simpl in Hpre.
  apply andb_true_iff in Hpre as [Hpre Hall].
  apply andb_true_iff in Hpre as [Hpairs Hth].
  unfold parameterize. rewrite Hpairs.
  unfold bind at 1. unfold isThunk. rewrite Hth.
  unfold bind at 1. by rewrite snapshot_valid.
Qed.

Lemma listed_closure s pairs l :
  sound s -> all_parameters s pairs = true -> l ∈ listed pairs ->
  exists g u, heap s !! l = Some (Closure g u).
Proof.
  intros Hs Hall Hl. unfold listed in Hl.
  apply list_elem_of_fmap in Hl as [pr [-> Hpr]].
  unfold all_parameters in Hall. rewrite forallb_forall in Hall.
  specialize (Hall pr). rewrite <- list_elem_of_In in Hall.
  destruct (parameterSet_has_closure _ _ Hs (Hall Hpr))
    as (l & g & u & Hitem & Hl).
  rewrite Hitem. simpl. eauto.
Qed.

(** The restoration loop, entry by entry: it stops at the first entry whose
    guard throws, and otherwise leaves every entry's parameter holding the
    guard's result on the recorded value. *)
Lemma restore_spec originalValues :
  forall s1 r2 s2,
    NoDup originalValues.*1 ->
    (forall l, l ∈ originalValues.*1 -> is_closure (heap s1 !! l)) ->
    restore originalValues s1 = (r2, s2) ->
    parameterSet s2 = parameterSet s1
    /\ (forall l, l ∉ originalValues.*1 -> heap s2 !! l = heap s1 !! l)
    /\ match r2 with
       | Normal _ =>
           guard_calls s2 = reverse originalValues ++ guard_calls s1
           /\ forall l u g c,
               (l, u) ∈ originalValues ->
               heap s1 !! l = Some (Closure g c) ->
               exists w, g u = Normal w /\ heap s2 !! l = Some (Closure g w)
       | Throw e =>
           exists l u g c,
             (l, u) ∈ originalValues
             /\ heap s1 !! l = Some (Closure g c)
             /\ g u = Throw e
       end.
Proof.
  induction originalValues as [|[p v] rest IH]; intros s1 r2 s2 Hnd Hcl Hrun.
  - injection Hrun as <- <-. split; [done|]. split; [done|].
    split; [done|]. intros l u g c Hin. by apply elem_of_nil in Hin.
  - simpl in Hnd. apply NoDup_cons in Hnd as [Hp Hnd].
    assert (is_closure (heap s1 !! p)) as Hpc by (apply Hcl; simpl; left).
    destruct (heap s1 !! p) as [[g c| |]|] eqn:Hlp; try done.
    simpl in Hrun. unfold bind in Hrun.
    destruct (g v) as [w|e] eqn:Hg.
    + erewrite parameter_set_ok in Hrun by done.
      set (s1' := store p (Closure g w) (record_call p v s1)) in *.
      assert (forall l, l <> p -> heap s1' !! l = heap s1 !! l) as Hother.
      { intros l Hne. unfold s1'. simpl.
        by rewrite list_lookup_insert_ne by done. }
      assert (heap s1' !! p = Some (Closure g w)) as Hself.
      { unfold s1'. simpl.
        by rewrite list_lookup_insert_eq by (by eapply lookup_lt_Some). }
      destruct (IH s1' r2 s2 Hnd) as (Hset & Hrest & Hres); [|done|].
      { intros l Hl. rewrite Hother by (intros ->; done).
        apply Hcl. simpl. by right. }
      split; [done|]. split.
      { intros l Hl. simpl in Hl. apply not_elem_of_cons in Hl as [Hne Hl].
        by rewrite Hrest, Hother. }
      destruct r2 as [[]|e].
      * destruct Hres as [Htrace Hvals]. split.
        { rewrite Htrace, reverse_cons, <- app_assoc. done. }
        intros l u g' c' Hin Hl. apply elem_of_cons in Hin as [[= -> ->]|Hin].
        -- rewrite Hlp in Hl. injection Hl as <- <-.
           exists w. by rewrite Hrest, Hself.
        -- assert (l <> p) as Hne.
           { intros ->. apply Hp. apply list_elem_of_fmap. by exists (p, u). }
           apply (Hvals l u g' c' Hin). by rewrite Hother.
      * destruct Hres as (l & u & g' & c' & Hin & Hl & Hthrow).
        assert (l <> p) as Hne.
        { intros ->. apply Hp. apply list_elem_of_fmap. by exists (p, u). }
        exists l, u, g', c'. rewrite Hother in Hl by done.
        split; [by right | done].
    + erewrite parameter_set_throw in Hrun by done.
      injection Hrun as <- <-. split; [done|]. split; [done|].
      exists p, v, g, c. split; [by left | done].
Qed.

(** [parameterize] on arguments that pass its checks: the rebinding and the
    thunk run first, the restoration of the snapshot second, and the outcome
    is that of the first unless the restoration throws. *)
Lemma parameterize_outcome s pairs thunk r s' :
  sound s ->
  preconditions s (VArray pairs) thunk = true ->
  stable (thunk_call thunk) ->
  parameterize (VArray pairs) thunk s = (r, s') ->
  exists r1 s1 r2,
    (rebind pairs ;;; thunk_call thunk) s = (r1, s1)
    /\ restore (snapshot_of s pairs []) s1 = (r2, s')
    /\ guards_kept s s1
    /\ r = match r2 with Normal _ => r1 | Throw e => Throw e end.
Proof.
  intros Hs Hpre Hth Hrun. rewrite parameterize_valid in Hrun by done.
  unfold try_finally in Hrun.
  assert (stable (rebind pairs ;;; thunk_call thunk)) as Hst.
  { apply stable_bind; [|done].
    apply disciplined_stable, disciplined_rebind. }
  specialize (Hst s). unfold exec in Hst.
  destruct ((rebind pairs ;;; thunk_call thunk) s) as [r1 s1].
  destruct (restore (snapshot_of s pairs []) s1) as [r2 s2] eqn:Hres.
  exists r1, s1, r2. simpl in Hst.
  destruct r2 as [[]|e]; injection Hrun as <- <-; done.
Qed.

Lemma snapshot_closures s s1 pairs :
  sound s -> all_parameters s pairs = true -> guards_kept s s1 ->
  forall l, l ∈ (snapshot_of s pairs []).*1 -> is_closure (heap s1 !! l).
Proof.
  intros Hs Hall Hkept l Hl. apply snapshot_of_keys in Hl.
  destruct (listed_closure _ _ _ Hs Hall Hl) as (g & u & Hlu).
  destruct (Hkept _ _ _ Hlu) as [u' ->]. done.
Qed.

Lemma preconditions_all_parameters s pairs thunk :
  preconditions s (VArray pairs) thunk = true ->
  all_parameters s pairs = true.
Proof. simpl. intros H. by apply andb_true_iff in H as [_ ?]. Qed.

(** The restoration of a snapshot of [s], from a state [s1] that kept the
    guards of [s]. *)
Lemma restore_snapshot s s1 pairs r2 s2 :
  sound s -> all_parameters s pairs = true -> guards_kept s s1 ->
  restore (snapshot_of s pairs []) s1 = (r2, s2) ->
  match r2 with
  | Normal _ =>
      guard_calls s2 = reverse (snapshot_of s pairs []) ++ guard_calls s1
      /\ forall l g u,
          l ∈ listed pairs -> heap s !! l = Some (Closure g u) ->
          exists w, g u = Normal w /\ heap s2 !! l = Some (Closure g w)
  | Throw e =>
      exists l g u,
        l ∈ listed pairs /\ heap s !! l = Some (Closure g u) /\ g u = Throw e
  end.
Proof.
  intros Hs Hall Hkept Hrun.
  destruct (restore_spec _ _ _ _ (snapshot_of_NoDup s pairs)
              (snapshot_closures _ _ _ Hs Hall Hkept) Hrun)
    as (_ & _ & Hres).
  destruct r2 as [[]|e].
  - destruct Hres as [Htrace Hvals]. split; [done|].
    intros l g u Hl Hlu.
    destruct (Hkept _ _ _ Hlu) as [c Hc].
    apply (Hvals l u g c); [|done].
    replace u with (held s l) by (unfold held; by rewrite Hlu).
    by apply snapshot_of_listed.
  - destruct Hres as (l & u & g & c & Hin & Hl1 & Hthrow).
    assert (l ∈ listed pairs) as Hl.
    { apply (snapshot_of_keys s). apply list_elem_of_fmap. by exists (l, u). }
    destruct (listed_closure _ _ _ Hs Hall Hl) as (g' & u' & Hlu).
    destruct (Hkept _ _ _ Hlu) as [c' Hc']. rewrite Hl1 in Hc'.
    injection Hc' as <- <-.
    apply snapshot_of_held in Hin. unfold held in Hin. rewrite Hlu in Hin.
    subst u'. by exists l, g, u.
Qed.

(** [parameterize([[p, v]], thunk)] when the guard of [p] accepts [v]: the
    thunk runs with [p] holding [g(v)], then the setter of [p] is called on
    the value [u] that [p] held at the start. *)
Lemma parameterize_single s p g u v x thunk r s1 c :
  sound s ->
  heap s !! p = Some (Closure g u) ->
  function_of_length 0 s (thunk_value thunk) = true ->
  g v = Normal x ->
  thunk_call thunk (store p (Closure g x) (record_call p v s)) = (r, s1) ->
  heap s1 !! p = Some (Closure g c) ->
  parameterize (VArray [VArray [VRef p; v]]) thunk s
  = match g u with
    | Normal w => (r, store p (Closure g w) (record_call p u s1))
    | Throw e => (Throw e, record_call p u s1)
    end.
Proof.
  intros Hs Hp Hth Hv Hbody Hp1.
  rewrite parameterize_valid; [|done|].
  2:{ simpl. rewrite Hth. simpl. rewrite andb_true_r.
      apply bool_decide_eq_true, Hs. by rewrite Hp. }
  cbn [rebind snapshot_of restore invoke item nth the_ref map_set].
  unfold held. rewrite Hp. unfold try_finally, bind.
  erewrite parameter_set_ok by done. unfold ret at 1. rewrite Hbody.
  destruct (g u) as [w|e] eqn:Hu.
  - erewrite parameter_set_ok by done. done.
  - erewrite parameter_set_throw by done. done.
Qed.

Lemma restore_app ov1 ov2 s :
  restore (ov1 ++ ov2) s = (restore ov1 ;;; restore ov2) s.
Proof.
  revert s. induction ov1 as [|[p v] ov1 IH]; intros s; [done|].
  simpl. unfold bind.
  destruct (parameter p [v] s) as [[w|e] s1]; [|done].
  rewrite IH. done.
Qed.

(** A call of a parameter leaves the trace as it is or records one
    application of the guard. *)
Lemma parameter_trace l args s :
  exists later,
    guard_calls (exec (parameter l args) s) = later ++ guard_calls s.
Proof.
  unfold exec. destruct (heap s !! l) as [[g u| |]|] eqn:Hl.
  2-4: rewrite parameter_no_closure by (rewrite Hl; simpl; tauto);
       by exists [].
  destruct args as [|x rest].
  { erewrite parameter_get by done. by exists []. }
  destruct (g x) as [w|e] eqn:Hg.
  - erewrite parameter_set_ok by done. by exists [(l, x)].
  - erewrite parameter_set_throw by done. by exists [(l, x)].
Qed.

Lemma restore_trace originalValues s :
  exists later,
    guard_calls (exec (restore originalValues) s) = later ++ guard_calls s.
Proof.
  revert s. induction originalValues as [|[p v] rest IH]; intros s.
  { by exists []. }
  destruct (parameter_trace p [v] s) as [later1 H1].
  unfold exec in *. simpl. unfold bind.
  destruct (parameter p [v] s) as [[w|e] s1]; simpl in *.
  - destruct (IH s1) as [later2 H2]. exists (later2 ++ later1).
    by rewrite H2, H1, app_assoc.
  - by exists later1.
Qed.

(** The restoration loop at the entry of [p]: when the guards accept the
    values of the entries before it, the loop reaches the entry and applies
    the guard of [p] to the recorded value; what the guard returns is what
    [p] holds when the loop is over, and what it throws ends the loop. *)
Lemma restore_reaches before p u after s1 r2 s2 g c :
  NoDup (before ++ (p, u) :: after).*1 ->
  (forall l, l ∈ (before ++ (p, u) :: after).*1 -> is_closure (heap s1 !! l)) ->
  heap s1 !! p = Some (Closure g c) ->
  restore (before ++ (p, u) :: after) s1 = (r2, s2) ->
  (forall q v gq cq,
      (q, v) ∈ before -> heap s1 !! q = Some (Closure gq cq) ->
      exists w, gq v = Normal w) ->
  (exists later,
      guard_calls s2 = later ++ (p, u) :: reverse before ++ guard_calls s1)
  /\ match g u with
     | Normal w => heap s2 !! p = Some (Closure g w)
     | Throw e => r2 = Throw e /\ heap s2 !! p = Some (Closure g c)
     end.
Proof.
  intros Hnd Hcl Hp Hrun Hacc.
  rewrite fmap_app, fmap_cons in Hnd, Hcl. simpl in Hnd, Hcl.
  apply NoDup_app in Hnd as (Hnd1 & Hdisj & Hnd2).
  apply NoDup_cons in Hnd2 as [Hpa Hnd2].
  rewrite restore_app in Hrun. unfold bind in Hrun.
  destruct (restore before s1) as [rb sb] eqn:Hb.
  destruct (restore_spec before s1 rb sb Hnd1) as (_ & Hsame & Hres); [|done|].
  { intros l Hl. apply Hcl. apply elem_of_app. by left. }
  destruct rb as [[]|eb].
  2:{ destruct Hres as (q & v & gq & cq & Hin & Hq & Hthrow).
      destruct (Hacc _ _ _ _ Hin Hq) as [w Hw]. congruence. }
  destruct Hres as [Htrace _].
  assert (p ∉ before.*1) as Hpb.
  { intros Hin. apply (Hdisj p Hin). by left. }
  assert (heap sb !! p = Some (Closure g c)) as Hpsb
    by (by rewrite Hsame).
  simpl in Hrun. unfold bind in Hrun.
  destruct (g u) as [w|e] eqn:Hu.
  - erewrite parameter_set_ok in Hrun by done.
    set (sp := store p (Closure g w) (record_call p u sb)) in *.
    destruct (restore_trace after sp) as [later Hlater].
    unfold exec in Hlater. rewrite Hrun in Hlater. simpl in Hlater.
    destruct (restore_spec after sp r2 s2 Hnd2) as (_ & Hsame2 & _);
      [|done|].
    { intros l Hl. unfold sp. simpl.
      rewrite list_lookup_insert_ne by (intros ->; done).
      rewrite Hsame.
      - apply Hcl. apply elem_of_app. right. by right.
      - intros Hin. apply (Hdisj l Hin). by right. }
    split.
    + exists later. by rewrite Hlater, Htrace.
    + rewrite Hsame2 by done. unfold sp. simpl.
      apply list_lookup_insert_eq. by eapply lookup_lt_Some.
  - erewrite parameter_set_throw in Hrun by done.
    injection Hrun as <- <-. split; [|done].
    exists []. simpl. by rewrite Htrace.
Qed.

(** ** C3: the held value *)

Lemma set_each_spec l g vs :
  forall s cur x,
    heap s !! l = Some (Closure g cur) ->
    g x = Normal cur ->
    exists cur' x',
      heap (set_each l vs s) !! l = Some (Closure g cur')
      /\ last_accepted g vs (Some x) = Some x'
      /\ g x' = Normal cur'.
Proof.
  induction vs as [|v vs IH]; intros s cur x Hl Hx.
  - by exists cur, x.
  - change (set_each l (v :: vs) s)
      with (set_each l vs (exec (parameter l [v]) s)).
    unfold exec. simpl. destruct (g v) as [w|e] eqn:Hv.
    + erewrite parameter_set_ok by done. simpl.
      apply (IH _ w v); [|done]. simpl.
      apply list_lookup_insert_eq. by eapply lookup_lt_Some.
    + erewrite parameter_set_throw by done. simpl.
      by apply (IH _ cur x).
Qed.

(** C3. Let [g] be the guard [makeParameter] ends up with. When [g] throws
    on [initialValue], [makeParameter] throws the same exception, and
    neither the heap nor [parameterSet] has a new parameter. Otherwise the
    new parameter holds [g(initialValue)], and after any series of calls of
    its setter it holds the guard's result on the last value the guard
    accepted, the initial value included; a call of the setter on a value the
    guard rejects throws the guard's exception and leaves the heap as it
    was. *)
Theorem held_value_is_last_accepted s initialValue guard g :
  run (checked_guard guard) s = Normal g ->
  let l := length (heap s) in
  match g initialValue with
  | Throw e =>
      run (makeParameter initialValue guard) s = Throw e
      /\ heap (exec (makeParameter initialValue guard) s) = heap s
      /\ parameterSet (exec (makeParameter initialValue guard) s)
         = parameterSet s
  | Normal w =>
      makeParameter initialValue guard s
      = (Normal (VRef l), made l g initialValue w s)
      /\ parameter l [] (made l g initialValue w s)
         = (Normal w, made l g initialValue w s)
      /\ forall vs,
          let s' := set_each l vs (made l g initialValue w s) in
          (exists x,
              last_accepted g (initialValue :: vs) None = Some x
              /\ g x = Normal (held s' l)
              /\ parameter l [] s' = (Normal (held s' l), s'))
          /\ forall v e rest,
              g v = Throw e ->
              run (parameter l (v :: rest)) s' = Throw e
              /\ heap (exec (parameter l (v :: rest)) s') = heap s'
  end.
Proof.
  intros Hg l. unfold run, exec. rewrite makeParameter_unfold, Hg.
  fold l. destruct (g initialValue) as [w|e] eqn:Hinit; simpl; [|done].
  assert (heap (made l g initialValue w s) !! l = Some (Closure g w)) as Hl.
  { simpl. by apply list_lookup_middle. }
  split; [done|]. split; [by eapply parameter_get|].
  intros vs.
  destruct (set_each_spec l g vs _ w initialValue Hl Hinit)
    as (cur' & x' & Hl' & Hlast & Hx').
  assert (held (set_each l vs (made l g initialValue w s)) l = cur') as ->.
  { unfold held. by rewrite Hl'. }
  split.
  - exists x'. rewrite Hinit. split; [done|]. split; [done|].
    by eapply parameter_get.
  - intros v e rest Hv. by erewrite parameter_set_throw.
Qed.

Lemma held_value_is_last_accepted_witness :
  let s := exec (new_function 1) initial_state in
  let guard := Some {| guard_value := VRef 0; guard_call := positive_guard |} in
  run (makeParameter (VNum 0) guard) s = Throw (Thrown (VStr "not positive"))
  /\ heap (exec (makeParameter (VNum 0) guard) s) = heap s
  /\ parameterSet (exec (makeParameter (VNum 0) guard) s) = parameterSet s.
Proof.
  intros s guard.
  apply (held_value_is_last_accepted s (VNum 0) guard positive_guard).
  reflexivity.
Defined.

Example held_value_history :
  let s := exec (new_function 1 ;;;
                 makeParameter (VNum 1)
                   (Some {| guard_value := VRef 0;
                            guard_call := positive_guard |}))
                initial_state in
  held (set_each 1 [VNum 4; VNum 0; VStr "a"] s) 1 = VNum 4
  /\ last_accepted positive_guard [VNum 1; VNum 4; VNum 0; VStr "a"] None
     = Some (VNum 4).
Proof. vm_compute. done. Qed.

(** ** C8: reading, and setting to [undefined] *)

(** C8. For a parameter holding [u] with guard [g]: the call with no
    argument returns [u] and leaves the whole state as it was, the trace of
    guard applications included, whatever [g] is; the call with the one
    argument [undefined] applies [g] to [undefined], and when [g] accepts,
    the parameter holds the guard's result, which the next read returns.
    With a guard that returns [undefined] on [undefined] (the default one
    does), the parameter then holds and returns [undefined]. *)
Theorem undefined_is_an_argument s l g u :
  heap s !! l = Some (Closure g u) ->
  parameter l [] s = (Normal u, s)
  /\ guard_calls (exec (parameter l [VUndefined]) s)
     = (l, VUndefined) :: guard_calls s
  /\ match g VUndefined with
     | Normal w =>
         run (parameter l [VUndefined]) s = Normal w
         /\ heap (exec (parameter l [VUndefined]) s) !! l
            = Some (Closure g w)
         /\ run (parameter l []) (exec (parameter l [VUndefined]) s)
            = Normal w
     | Throw e =>
         run (parameter l [VUndefined]) s = Throw e
         /\ heap (exec (parameter l [VUndefined]) s) = heap s
     end.
Proof.
  intros Hl. split; [by eapply parameter_get|].
  assert (l < length (heap s)) as Hlt by (by eapply lookup_lt_Some).
  unfold run, exec. destruct (g VUndefined) as [w|e] eqn:Hg.
  - erewrite parameter_set_ok by done. simpl. split; [done|].
    split; [done|]. split; [by apply list_lookup_insert_eq|].
    erewrite parameter_get; [done|]. simpl. by apply list_lookup_insert_eq.
  - erewrite parameter_set_throw by done. done.
Qed.

Lemma undefined_is_an_argument_witness :
  let s := one_parameter (VNum 5) default_guard in
  parameter 1 [] s = (Normal (VNum 5), s)
  /\ guard_calls (exec (parameter 1 [VUndefined]) s)
     = (1, VUndefined) :: guard_calls s
  /\ run (parameter 1 [VUndefined]) s = Normal VUndefined
  /\ heap (exec (parameter 1 [VUndefined]) s) !! 1
     = Some (Closure default_guard VUndefined)
  /\ run (parameter 1 []) (exec (parameter 1 [VUndefined]) s)
     = Normal VUndefined.
Proof.
  intros s.
  apply (undefined_is_an_argument s 1 default_guard (VNum 5)).
  reflexivity.
Defined.

(** ** C10: extra arguments *)

(** C10. A call of a parameter with a first argument [v] and more is the
    call with [v] alone: same outcome and same state. Its outcome is that of
    the guard on [v], so the other arguments raise nothing, and the guard
    is applied once, to [v]. *)
Theorem extra_arguments_are_ignored s l g u v rest :
  heap s !! l = Some (Closure g u) ->
  parameter l (v :: rest) s = parameter l [v] s
  /\ run (parameter l (v :: rest)) s = g v
  /\ guard_calls (exec (parameter l (v :: rest)) s)
     = (l, v) :: guard_calls s.
Proof.
  intros Hl. unfold run, exec. destruct (g v) as [w|e] eqn:Hv.
  - rewrite (parameter_set_ok l g u v rest w s Hl Hv).
    by rewrite (parameter_set_ok l g u v [] w s Hl Hv).
  - rewrite (parameter_set_throw l g u v rest e s Hl Hv).
    by rewrite (parameter_set_throw l g u v [] e s Hl Hv).
Qed.

Lemma extra_arguments_are_ignored_witness :
  let s := one_parameter (VNum 1) positive_guard in
  let args := [VNum 0; VStr "z"] in
  parameter 1 (VNum 3 :: args) s = parameter 1 [VNum 3] s
  /\ run (parameter 1 (VNum 3 :: args)) s = positive_guard (VNum 3)
  /\ guard_calls (exec (parameter 1 (VNum 3 :: args)) s)
     = (1, VNum 3) :: guard_calls s.
Proof.
  intros s args.
  apply (extra_arguments_are_ignored s 1 positive_guard (VNum 1) (VNum 3)
           args).
  reflexivity.
Defined.

(** ** C7: rejected arguments *)

(** C7. When the arguments of [parameterize] fail one of its checks (the
    first is not an array of two-item arrays, the second is not a function
    of length 0, or the first item of some pair is not a parameter), the
    call throws a [TypeError] with the message of the failed check and the
    state is the one it started in: no parameter has changed, and no guard
    has run. *)
Theorem invalid_arguments_change_nothing s parameters thunk :
  sound s ->
  preconditions s parameters thunk = false ->
  exists msg,
    parameterize parameters thunk s = (Throw (TypeError msg), s)
    /\ msg ∈ ["Expected first argument to be an array of pairs";
              "Expected second argument to be a thunk";
              "Expected first item of pair to be a parameter"].
Proof.
  intros Hs Hpre. unfold parameterize.
  destruct parameters as [| | | | | | | pairs|];
    try (eexists; split; [reflexivity | set_solver]).
  simpl in Hpre.
  destruct (forallb isPair pairs);
    [|eexists; split; [reflexivity | set_solver]].
  unfold bind at 1. unfold isThunk.
  destruct (function_of_length 0 s (thunk_value thunk));
    [|eexists; split; [reflexivity | set_solver]].
  simpl in Hpre. unfold bind. rewrite snapshot_invalid by done.
  eexists. split; [reflexivity | set_solver].
Qed.

Lemma invalid_arguments_change_nothing_witness :
  let s := one_parameter (VNum 1) default_guard in
  exists msg,
    parameterize (VArray [VArray [VRef 1; VNum 2]; VArray [VNull; VNum 3]])
                 empty_thunk s
    = (Throw (TypeError msg), s)
    /\ msg ∈ ["Expected first argument to be an array of pairs";
              "Expected second argument to be a thunk";
              "Expected first item of pair to be a parameter"].
Proof.
  intros s.
  apply (invalid_arguments_change_nothing s
           (VArray [VArray [VRef 1; VNum 2]; VArray [VNull; VNum 3]])
           empty_thunk).
  - apply one_parameter_sound.
  - reflexivity.
Defined.

(** The rejections of the tests of [parameterize], in the state where
    [param] is the parameter at address 1; the function at address 0 stands
    for the object [{}], and for a function of one argument. *)
Example invalid_arguments_of_the_tests :
  let s := one_parameter VNull default_guard in
  run (parameterize (VRef 0) empty_thunk) s
  = Throw (TypeError "Expected first argument to be an array of pairs")
  /\ run (parameterize (VArray [VArray []]) empty_thunk) s
     = Throw (TypeError "Expected first argument to be an array of pairs")
  /\ run (parameterize (VArray [VArray [VRef 1]]) empty_thunk) s
     = Throw (TypeError "Expected first argument to be an array of pairs")
  /\ run (parameterize (VArray [VArray [VNull; VRef 0]]) empty_thunk) s
     = Throw (TypeError "Expected first item of pair to be a parameter")
  /\ run (parameterize (VArray [])
            {| thunk_value := VRef 0; thunk_call := ret VUndefined |}) s
     = Throw (TypeError "Expected second argument to be a thunk").
Proof. vm_compute. repeat split. Qed.

(** ** C9: restoration goes through the setter *)

(** C9 as stated does not hold of every listed parameter: the restoration
    loop ends at the first setter call that throws, and the entries after
    it are not written back. [p = makeParameter(1, predecessor_guard)] holds
    0 and [q = makeParameter(10)] holds 10, with the default guard, which
    accepts 10 and returns it. In [parameterize([[p, 5], [q, 20]],
    () => {})] the restoration of [p] throws, as the guard of [p] rejects
    0; the guard of [q] is not applied to the recorded 10 (the trace of the
    call has the two applications of the apply loop and the one on 0), and
    [q()] is 20 after the call, not the 10 that its guard returns on 10. *)
Lemma restoration_counterexample :
  let s := two_parameters (VNum 1) (VNum 10)
             predecessor_guard default_guard in
  let thunk := {| thunk_value := VRef 4; thunk_call := ret VUndefined |} in
  let bindings := VArray [VArray [VRef 1; VNum 5]; VArray [VRef 3; VNum 20]] in
  let s' := exec (parameterize bindings thunk) s in
  preconditions s bindings thunk = true
  /\ heap s !! 3 = Some (Closure default_guard (VNum 10))
  /\ default_guard (VNum 10) = Normal (VNum 10)
  /\ run (parameterize bindings thunk) s
     = Throw (Thrown (VStr "Expected a positive number"))
  /\ guard_calls s'
     = [(1, VNum 0); (3, VNum 20); (1, VNum 5)] ++ guard_calls s
  /\ run (parameter 3 []) s' = Normal (VNum 20)
  /\ run (parameter 3 []) s' <> default_guard (VNum 10).
Proof. vm_compute. repeat split; congruence. Qed.

(** C9 (amended). For bindings that pass validation and a body that keeps
    the guards of existing parameters, let [p] be a listed parameter with
    guard [g] holding [u] before the call. The snapshot has the entry
    [(p, u)]. When the guards of the entries before it accept the values
    recorded for them (there is none before it when [p] is the first or
    the only listed parameter), the
    restoration loop applies [g] to [u] once more: when [g] accepts, [p]
    holds [g(u)] after the call, which is not [u] when [g(u)] differs from
    [u]; when [g] rejects, the restoration throws, [parameterize] fails with
    the guard's exception and [p] keeps the value the body left in it. *)
Theorem restoration_applies_guard s pairs thunk r s' p g u :
  sound s ->
  preconditions s (VArray pairs) thunk = true ->
  stable (thunk_call thunk) ->
  parameterize (VArray pairs) thunk s = (r, s') ->
  p ∈ listed pairs ->
  heap s !! p = Some (Closure g u) ->
  exists before after r1 s1,
    snapshot_of s pairs [] = before ++ (p, u) :: after
    /\ (rebind pairs ;;; thunk_call thunk) s = (r1, s1)
    /\ ((forall q gq uq,
            (q, uq) ∈ before -> heap s !! q = Some (Closure gq uq) ->
            exists w, gq uq = Normal w) ->
        (exists later,
            guard_calls s'
            = later ++ (p, u) :: reverse before ++ guard_calls s1)
        /\ match g u with
           | Normal w =>
               parameter p [] s' = (Normal w, s')
               /\ (w <> u -> held s' p <> held s p)
           | Throw e => r = Throw e /\ held s' p = held s1 p
           end).
Proof.
  intros Hs Hpre Hth Hrun Hp Hpu.
  pose proof (preconditions_all_parameters _ _ _ Hpre) as Hall.
  destruct (parameterize_outcome _ _ _ _ _ Hs Hpre Hth Hrun)
    as (r1 & s1 & r2 & Hbody & Hres & Hkept & Hr).
  assert ((p, u) ∈ snapshot_of s pairs []) as Hin.
  { replace u with (held s p) by (unfold held; by rewrite Hpu).
    by apply snapshot_of_listed. }
  apply list_elem_of_split in Hin as (before & after & Hsplit).
  exists before, after, r1, s1. split; [done|]. split; [done|].
  intros Hacc. destruct (Hkept _ _ _ Hpu) as [c Hc].
  rewrite Hsplit in Hres.
  destruct (restore_reaches before p u after s1 r2 s' g c) as [Htrace Hval];
    [| |done|done| |].
  - rewrite <- Hsplit. apply snapshot_of_NoDup.
  - rewrite <- Hsplit. by eapply snapshot_closures.
  - intros q v gq cq Hq Hq1.
    assert ((q, v) ∈ snapshot_of s pairs []) as Hqin.
    { rewrite Hsplit. apply elem_of_app. by left. }
    assert (q ∈ listed pairs) as Hql.
    { apply (snapshot_of_keys s). apply list_elem_of_fmap. by exists (q, v). }
    destruct (listed_closure _ _ _ Hs Hall Hql) as (gq' & uq & Hqu).
    destruct (Hkept _ _ _ Hqu) as [cq' Hq1']. rewrite Hq1 in Hq1'.
    injection Hq1' as <- <-.
    apply snapshot_of_held in Hqin. unfold held in Hqin. rewrite Hqu in Hqin.
    subst v. by apply (Hacc q gq uq).
  - split; [done|]. destruct (g u) as [w|e].
    + split; [by eapply parameter_get|].
      unfold held. by rewrite Hval, Hpu.
    + destruct Hval as [-> Hval]. split; [done|].
      unfold held. by rewrite Hval, Hc.
Qed.

Lemma restoration_applies_guard_witness :
  let s := one_parameter (VNum 0) successor_guard in
  let pairs := [VArray [VRef 1; VNum 5]] in
  let r := run (parameterize (VArray pairs) empty_thunk) s in
  let s' := exec (parameterize (VArray pairs) empty_thunk) s in
  exists before after r1 s1,
    snapshot_of s pairs [] = before ++ (1, VNum 1) :: after
    /\ (rebind pairs ;;; thunk_call empty_thunk) s = (r1, s1)
    /\ ((forall q gq uq,
            (q, uq) ∈ before -> heap s !! q = Some (Closure gq uq) ->
            exists w, gq uq = Normal w) ->
        (exists later,
            guard_calls s'
            = later ++ (1, VNum 1) :: reverse before ++ guard_calls s1)
        /\ (parameter 1 [] s' = (Normal (VNum 2), s')
            /\ (VNum 2 <> VNum 1 -> held s' 1 <> held s 1))).
Proof.
  intros s pairs r s'.
  apply (restoration_applies_guard s pairs empty_thunk r s'
           1 successor_guard (VNum 1)).
  - apply one_parameter_sound.
  - vm_compute. reflexivity.
  - apply disciplined_stable, disciplined_ret.
  - vm_compute. reflexivity.
  - apply list_elem_of_singleton. reflexivity.
  - reflexivity.
Defined.

(** The restoration throwing: with [predecessor_guard], [p] made from 1
    holds 0, which the guard rejects when it is written back. *)
Example restoration_can_throw :
  let s := one_parameter (VNum 1) predecessor_guard in
  let bindings := VArray [VArray [VRef 1; VNum 5]] in
  run (parameter 1 []) s = Normal (VNum 0)
  /\ run (parameterize bindings empty_thunk) s
     = Throw (Thrown (VStr "Expected a positive number"))
  /\ run (parameter 1 []) (exec (parameterize bindings empty_thunk) s)
     = Normal (VNum 4).
Proof. vm_compute. repeat split. Qed.

(** ** C1: failure and restoration *)

(** C1 as stated does not hold. [p = makeParameter(0, successor_guard)]
    holds 1; the bindings [[[p, 5]]] pass validation and the body throws
    ["boom"]; [parameterize] propagates the failure of the body, and [p()]
    is then 2, not the 1 it was before the call: the restoration wrote
    [successor_guard(1)]. *)
Lemma parameterize_failure_counterexample :
  let s := one_parameter (VNum 0) successor_guard in
  let bindings := VArray [VArray [VRef 1; VNum 5]] in
  preconditions s bindings failing_thunk = true
  /\ run (parameter 1 []) s = Normal (VNum 1)
  /\ run (parameterize bindings failing_thunk) s = Throw (Thrown (VStr "boom"))
  /\ run (parameter 1 []) (exec (parameterize bindings failing_thunk) s)
     = Normal (VNum 2)
  /\ run (parameter 1 []) (exec (parameterize bindings failing_thunk) s)
     <> run (parameter 1 []) s.
Proof. vm_compute. repeat split; congruence. Qed.

(** C1 (amended). For bindings that pass validation and a body that keeps
    the guards of existing parameters, when the guard of every listed
    parameter accepts the value the parameter held before the call: if the
    try part fails with [e], either because a setter call of the apply loop
    throws (the body is then not run) or because the body throws after the
    bindings were applied, then [parameterize] fails with that same [e],
    and it does so after the restoration loop has run to its end on the
    whole snapshot, one setter call per entry in the order of the snapshot.
    Every listed parameter [p], with guard [g] and pre-call value [u],
    returns [g(u)] afterwards: its pre-call value whenever [g(u) = u], as
    with the default guard. *)
Theorem parameterize_failure_restores s pairs thunk e s1 :
  sound s ->
  preconditions s (VArray pairs) thunk = true ->
  stable (thunk_call thunk) ->
  (forall l g u,
      l ∈ listed pairs -> heap s !! l = Some (Closure g u) ->
      exists w, g u = Normal w) ->
  (rebind pairs s = (Throw e, s1)
   \/ exists s0,
        rebind pairs s = (Normal tt, s0)
        /\ thunk_call thunk s0 = (Throw e, s1)) ->
  exists s',
    parameterize (VArray pairs) thunk s = (Throw e, s')
    /\ restore (snapshot_of s pairs []) s1 = (Normal tt, s')
    /\ guard_calls s' = reverse (snapshot_of s pairs []) ++ guard_calls s1
    /\ forall l, l ∈ listed pairs ->
         exists g w,
           heap s !! l = Some (Closure g (held s l))
           /\ g (held s l) = Normal w
           /\ parameter l [] s' = (Normal w, s').
Proof.
  intros Hs Hpre Hth Hacc Hfail.
  assert ((rebind pairs ;;; thunk_call thunk) s = (Throw e, s1)) as Htry.
  { unfold bind. destruct Hfail as [-> | (s0 & -> & Hbody)]; done. }
  pose proof (preconditions_all_parameters _ _ _ Hpre) as Hall.
  destruct (parameterize (VArray pairs) thunk s) as [r s'] eqn:Hrun.
  destruct (parameterize_outcome _ _ _ _ _ Hs Hpre Hth Hrun)
    as (r1 & s1' & r2 & Hbody & Hres & Hkept & Hr).
  rewrite Htry in Hbody. injection Hbody as <- <-.
  pose proof (restore_snapshot _ _ _ _ _ Hs Hall Hkept Hres) as Hspec.
  destruct r2 as [[]|e'].
  - exists s'. subst r. destruct Hspec as [Htrace Hvals].
    split; [done|]. split; [done|]. split; [done|].
    intros l Hl.
    destruct (listed_closure _ _ _ Hs Hall Hl) as (g & u & Hlu).
    destruct (Hvals _ _ _ Hl Hlu) as (w & Hw & Hl').
    exists g, w. unfold held. rewrite Hlu.
    split; [done|]. split; [done|]. by eapply parameter_get.
  - destruct Hspec as (l & g & u & Hl & Hlu & Hthrow).
    destruct (Hacc _ _ _ Hl Hlu) as [w Hw]. congruence.
Qed.

(** Two failures: a body that throws, with one parameter bound; and, with
    two parameters, a second binding that its guard rejects after the first
    was applied. *)
Lemma parameterize_failure_restores_witness :
  (let s := one_parameter (VNum 7) default_guard in
   let pairs := [VArray [VRef 1; VNum 5]] in
   let s1 := exec (rebind pairs ;;; thunk_call failing_thunk) s in
   exists s',
     parameterize (VArray pairs) failing_thunk s
     = (Throw (Thrown (VStr "boom")), s')
     /\ restore (snapshot_of s pairs []) s1 = (Normal tt, s')
     /\ guard_calls s' = reverse (snapshot_of s pairs []) ++ guard_calls s1
     /\ forall l, l ∈ listed pairs ->
          exists g w,
            heap s !! l = Some (Closure g (held s l))
            /\ g (held s l) = Normal w
            /\ parameter l [] s' = (Normal w, s'))
  /\ (let s := two_parameters (VNum 1) (VNum 10)
                 default_guard positive_guard in
      let pairs := [VArray [VRef 1; VNum 5]; VArray [VRef 3; VNum 0]] in
      let thunk := {| thunk_value := VRef 4; thunk_call := ret VUndefined |} in
      let s1 := exec (rebind pairs) s in
      exists s',
        parameterize (VArray pairs) thunk s
        = (Throw (Thrown (VStr "not positive")), s')
        /\ restore (snapshot_of s pairs []) s1 = (Normal tt, s')
        /\ guard_calls s' = reverse (snapshot_of s pairs []) ++ guard_calls s1
        /\ forall l, l ∈ listed pairs ->
             exists g w,
               heap s !! l = Some (Closure g (held s l))
               /\ g (held s l) = Normal w
               /\ parameter l [] s' = (Normal w, s')).
Proof.
  split.
  - intros s pairs s1.
    apply (parameterize_failure_restores s pairs failing_thunk
             (Thrown (VStr "boom")) s1).
    + apply one_parameter_sound.
    + vm_compute. reflexivity.
    + apply disciplined_stable, disciplined_throw.
    + intros l g u Hl Hlu. apply list_elem_of_singleton in Hl. subst l.
      vm_compute in Hlu. injection Hlu as <- <-. by exists (VNum 7).
    + right. eexists. split; vm_compute; reflexivity.
  - intros s pairs thunk s1.
    apply (parameterize_failure_restores s pairs thunk
             (Thrown (VStr "not positive")) s1).
    + apply two_parameters_sound.
    + vm_compute. reflexivity.
    + apply disciplined_stable, disciplined_ret.
    + intros l g u Hl Hlu.
      apply elem_of_cons in Hl as [->|Hl];
        [|apply list_elem_of_singleton in Hl; subst l];
        vm_compute in Hlu; injection Hlu as <- <-.
      * by exists (VNum 1).
      * by exists (VNum 10).
    + left. vm_compute. reflexivity.
Defined.

(** ** C2: round trip *)

(** C2 as stated does not hold. [p = makeParameter(0, successor_guard)]
    holds 1 and its guard accepts 5; [parameterize([[p, 5]], () => {})]
    completes, and [p()] is then 2, not the 1 it was before the call. *)
Lemma roundtrip_counterexample :
  let s := one_parameter (VNum 0) successor_guard in
  let bindings := VArray [VArray [VRef 1; VNum 5]] in
  successor_guard (VNum 5) = Normal (VNum 6)
  /\ run (parameter 1 []) s = Normal (VNum 1)
  /\ run (parameterize bindings empty_thunk) s = Normal VUndefined
  /\ run (parameter 1 []) (exec (parameterize bindings empty_thunk) s)
     = Normal (VNum 2)
  /\ run (parameter 1 []) (exec (parameterize bindings empty_thunk) s)
     <> run (parameter 1 []) s.
Proof. vm_compute. repeat split; congruence. Qed.

(** C2 (amended). For every parameter [p] with guard [g] holding [u], and
    every [v] accepted by [g]: when [g] accepts [u] too,
    [parameterize([[p, v]], () => {})] completes and [p()] then equals
    [g(u)], the value held before the call passed through the guard once
    more. It is the value held before the call whenever [g(u) = u], as with
    the default guard. *)
Theorem roundtrip_through_guard s p g u v x w f :
  sound s ->
  heap s !! p = Some (Closure g u) ->
  function_of_length 0 s f = true ->
  g v = Normal x ->
  g u = Normal w ->
  exists s',
    parameterize (VArray [VArray [VRef p; v]])
                 {| thunk_value := f; thunk_call := ret VUndefined |} s
    = (Normal VUndefined, s')
    /\ parameter p [] s' = (Normal w, s').
Proof.
  intros Hs Hp Hf Hv Hu.
  assert (heap (store p (Closure g x) (record_call p v s)) !! p
          = Some (Closure g x)) as Hp1.
  { apply lookup_store_eq. simpl. by eapply lookup_lt_Some. }
  erewrite parameterize_single; [|done..|reflexivity|exact Hp1].
  rewrite Hu. eexists. split; [reflexivity|].
  eapply parameter_get. apply lookup_store_eq. simpl.
  rewrite length_insert. by eapply lookup_lt_Some.
Qed.

Lemma roundtrip_through_guard_witness :
  let s := one_parameter (VStr "Red") default_guard in
  exists s',
    parameterize (VArray [VArray [VRef 1; VStr "blue"]])
                 {| thunk_value := VRef 2; thunk_call := ret VUndefined |} s
    = (Normal VUndefined, s')
    /\ parameter 1 [] s' = (Normal (VStr "Red"), s').
Proof.
  intros s.
  apply (roundtrip_through_guard s 1 default_guard (VStr "Red")
           (VStr "blue") (VStr "blue") (VStr "Red") (VRef 2)).
  - apply one_parameter_sound.
  - reflexivity.
  - reflexivity.
  - reflexivity.
  - reflexivity.
Defined.

(** ** C4: a parameter listed more than once *)

(** C4. The snapshot of bindings that pass validation has one entry per
    listed parameter, however often it is listed, and the entry holds the
    value the parameter had before the call. For [p] holding [u], with a
    guard that accepts ["x"] and leaves ["y"] and [u] as they are (the
    default guard does), [parameterize([[p, "x"], [p, "y"]], () => p())]
    records [u] once, returns ["y"], calls the setter of [p] once to restore
    it, and [p()] is [u] afterwards. *)
Theorem duplicate_bindings_restore_original s p g u x' f :
  sound s ->
  heap s !! p = Some (Closure g u) ->
  function_of_length 0 s f = true ->
  g (VStr "x") = Normal x' ->
  g (VStr "y") = Normal (VStr "y") ->
  g u = Normal u ->
  (forall pairs,
      all_parameters s pairs = true ->
      snapshot pairs [] s = (Normal (snapshot_of s pairs []), s)
      /\ NoDup (snapshot_of s pairs []).*1
      /\ forall l v,
           (l, v) ∈ snapshot_of s pairs []
           <-> l ∈ listed pairs /\ v = held s l)
  /\ let bindings := [VArray [VRef p; VStr "x"]; VArray [VRef p; VStr "y"]] in
     let thunk := {| thunk_value := f; thunk_call := invoke (VRef p) [] |} in
     snapshot bindings [] s = (Normal [(p, u)], s)
     /\ exists s',
          parameterize (VArray bindings) thunk s = (Normal (VStr "y"), s')
          /\ parameter p [] s' = (Normal u, s')
          /\ guard_calls s'
             = [(p, u); (p, VStr "y"); (p, VStr "x")] ++ guard_calls s.
Proof.
  intros Hs Hp Hf Hx Hy Hu. split.
  { intros pairs Hall. split; [by apply snapshot_valid|].
    split; [apply snapshot_of_NoDup|].
    intros l v. split.
    - intros Hin. split; [|by eapply snapshot_of_held].
      apply (snapshot_of_keys s). apply list_elem_of_fmap. by exists (l, v).
    - intros [Hl ->]. by apply snapshot_of_listed. }
  intros bindings thunk.
  assert (all_parameters s bindings = true) as Hall.
  { pose proof (closure_in_parameterSet _ _ _ _ Hs Hp) as Hin.
    unfold all_parameters, bindings. cbn [forallb item nth].
    by rewrite Hin. }
  assert (snapshot_of s bindings [] = [(p, u)]) as Hsnap.
  { simpl. unfold held. rewrite Hp. by rewrite decide_True. }
  split; [by rewrite snapshot_valid, Hsnap|].
  assert (p < length (heap s)) as Hlt by (by eapply lookup_lt_Some).
  rewrite parameterize_valid, Hsnap; [|done|].
  2:{ unfold preconditions. rewrite Hall. cbn [thunk_value thunk].
      rewrite Hf. reflexivity. }
  cbn [rebind restore invoke item nth thunk_call thunk bindings].
  unfold try_finally, bind.
  erewrite parameter_set_ok by done.
  erewrite parameter_set_ok; [|by apply lookup_store_eq|done].
  unfold ret.
  erewrite parameter_get.
  2:{ apply lookup_store_eq. simpl. by rewrite length_insert. }
  erewrite parameter_set_ok; [| |exact Hu].
  2:{ apply lookup_store_eq. simpl. by rewrite length_insert. }
  eexists. split; [reflexivity|]. split; [|reflexivity].
  eapply parameter_get. apply lookup_store_eq. simpl.
  by rewrite !length_insert.
Qed.

Lemma duplicate_bindings_restore_original_witness :
  let s := one_parameter (VStr "a") default_guard in
  (forall pairs,
      all_parameters s pairs = true ->
      snapshot pairs [] s = (Normal (snapshot_of s pairs []), s)
      /\ NoDup (snapshot_of s pairs []).*1
      /\ forall l v,
           (l, v) ∈ snapshot_of s pairs []
           <-> l ∈ listed pairs /\ v = held s l)
  /\ let bindings := [VArray [VRef 1; VStr "x"]; VArray [VRef 1; VStr "y"]] in
     let thunk := {| thunk_value := VRef 2; thunk_call := invoke (VRef 1) [] |} in
     snapshot bindings [] s = (Normal [(1, VStr "a")], s)
     /\ exists s',
          parameterize (VArray bindings) thunk s = (Normal (VStr "y"), s')
          /\ parameter 1 [] s' = (Normal (VStr "a"), s')
          /\ guard_calls s'
             = [(1, VStr "a"); (1, VStr "y"); (1, VStr "x")] ++ guard_calls s.
Proof.
  intros s.
  apply (duplicate_bindings_restore_original s 1 default_guard (VStr "a")
           (VStr "x") (VRef 2)).
  - apply one_parameter_sound.
  - reflexivity.
  - reflexivity.
  - reflexivity.
  - reflexivity.
  - reflexivity.
Defined.

(** ** C5: nesting *)

(** C5. For a parameter [n] with the default guard holding [u] (1 in the
    scenario of the specification, with [a] = 2 and [b] = 3): the inner call
    starts in a state where its snapshot records the value [a] bound by the
    outer call; the nested call yields [b]; the inner restoration writes [a]
    back and the outer one [u], so that [n()] is [a] in the outer body after
    the inner call and [u] after both calls. *)
Theorem nested_parameterize_layers s n u a b fo fi :
  sound s ->
  heap s !! n = Some (Closure default_guard u) ->
  function_of_length 0 s fo = true ->
  function_of_length 0 s fi = true ->
  (exists s_outer,
      parameter n [a] s = (Normal a, s_outer)
      /\ snapshot [VArray [VRef n; b]] [] s_outer
         = (Normal [(n, a)], s_outer))
  /\ (exists s',
        nested_call (VRef n) a b fo fi s = (Normal b, s')
        /\ parameter n [] s' = (Normal u, s')
        /\ guard_calls s'
           = [(n, u); (n, a); (n, b); (n, a)] ++ guard_calls s)
  /\ (exists s',
        nested_call_observed (VRef n) a b fo fi s
        = (Normal (VArray [b; a]), s')
        /\ parameter n [] s' = (Normal u, s')).
Proof.
  intros Hs Hn Hfo Hfi.
  assert (n < length (heap s)) as Hlt by (by eapply lookup_lt_Some).
  set (sA := store n (Closure default_guard a) (record_call n a s)).
  set (sB := store n (Closure default_guard b) (record_call n b sA)).
  set (sC := store n (Closure default_guard a) (record_call n a sB)).
  assert (heap sA !! n = Some (Closure default_guard a)) as HnA
    by (by apply lookup_store_eq).
  assert (heap sB !! n = Some (Closure default_guard b)) as HnB.
  { apply lookup_store_eq. simpl. by rewrite length_insert. }
  assert (heap sC !! n = Some (Closure default_guard a)) as HnC.
  { apply lookup_store_eq. simpl. by rewrite !length_insert. }
  assert (sound sA) as HsA by (by eapply sound_set).
  assert (parameterize (VArray [VArray [VRef n; b]])
            (reading_thunk fi (VRef n)) sA = (Normal b, sC)) as Hinner.
  { rewrite (parameterize_single sA n default_guard a b b _ (Normal b) sB b);
      [reflexivity|done|exact HnA| |reflexivity| |exact HnB].
    - unfold sA. by erewrite function_of_length_store.
    - simpl. by eapply parameter_get. }
  split; [|split].
  - exists sA. split; [by eapply parameter_set_ok|].
    rewrite snapshot_valid; [|done|].
    + simpl. unfold held. by rewrite HnA.
    + unfold all_parameters. cbn [forallb item nth].
      by rewrite (closure_in_parameterSet _ _ _ _ HsA HnA).
  - unfold nested_call.
    rewrite (parameterize_single s n default_guard u a a _ (Normal b) sC a);
      [|done|exact Hn|done|reflexivity|exact Hinner|exact HnC].
    simpl. eexists. split; [reflexivity|]. split; [|reflexivity].
    eapply parameter_get. apply lookup_store_eq. simpl.
    by rewrite !length_insert.
  - unfold nested_call_observed.
    rewrite (parameterize_single s n default_guard u a a _
               (Normal (VArray [b; a])) sC a);
      [|done|exact Hn|done|reflexivity| |exact HnC].
    2:{ cbn [thunk_call]. unfold bind. fold sA. rewrite Hinner.
        cbn [invoke]. erewrite parameter_get by exact HnC. reflexivity. }
    simpl. eexists. split; [reflexivity|].
    eapply parameter_get. apply lookup_store_eq. simpl.
    by rewrite !length_insert.
Qed.

Lemma nested_parameterize_layers_witness :
  let s := exec (makeParameter (VNum 1) None ;;;
                 new_function 0 ;;; new_function 0) initial_state in
  (exists s_outer,
      parameter 0 [VNum 2] s = (Normal (VNum 2), s_outer)
      /\ snapshot [VArray [VRef 0; VNum 3]] [] s_outer
         = (Normal [(0, VNum 2)], s_outer))
  /\ (exists s',
        nested_call (VRef 0) (VNum 2) (VNum 3) (VRef 1) (VRef 2) s
        = (Normal (VNum 3), s')
        /\ parameter 0 [] s' = (Normal (VNum 1), s')
        /\ guard_calls s'
           = [(0, VNum 1); (0, VNum 2); (0, VNum 3); (0, VNum 2)]
               ++ guard_calls s)
  /\ (exists s',
        nested_call_observed (VRef 0) (VNum 2) (VNum 3) (VRef 1) (VRef 2) s
        = (Normal (VArray [VNum 3; VNum 2]), s')
        /\ parameter 0 [] s' = (Normal (VNum 1), s')).
Proof.
  intros s.
  apply (nested_parameterize_layers s 0 (VNum 1) (VNum 2) (VNum 3)
           (VRef 1) (VRef 2)).
  - apply host_reaches_sound.
    apply host_bind; [apply host_makeParameter | intros _].
    apply host_bind; [apply host_new_function | intros _].
    apply host_new_function.
  - reflexivity.
  - reflexivity.
  - reflexivity.
Defined.

(** ** C6: the identity check *)

(** [makeParameter] is the only operation that puts a closure in the heap:
    a closure of the final state was there before or is the result of a call
    that succeeded. *)
Lemma closures_come_from_makeParameter initialValue guard s v :
  built_by_makeParameter (exec (makeParameter initialValue guard) s) v ->
  built_by_makeParameter s v
  \/ run (makeParameter initialValue guard) s = Normal v.
Proof.
  unfold run, exec. rewrite makeParameter_unfold.
  destruct (run (checked_guard guard) s) as [g|e]; [|by left].
  simpl. destruct (g initialValue) as [w|e]; simpl; [|by left].
  intros (l & g' & u & -> & Hl). simpl in Hl.
  destruct (decide (l < length (heap s))) as [Hlt|Hge].
  - rewrite lookup_app_l in Hl by done. left. by exists l, g', u.
  - right. f_equal. f_equal.
    apply lookup_lt_Some in Hl. rewrite length_app in Hl. simpl in Hl. lia.
Qed.

(** index.ts: in every state host code can reach, [isParameter] returns
    (it is a total function of the state), and it returns [true] exactly on
    the closures built by [makeParameter]; on a function the host built
    itself it returns [false], whatever the function's length. *)
Lemma isParameter_iff_built {A} (m : M A) v :
  host m ->
  let s := exec m initial_state in
  exists b,
    isParameter v s = (Normal b, s)
    /\ (b = true <-> built_by_makeParameter s v)
    /\ (forall l len, v = VRef l -> heap s !! l = Some (Function len) ->
                      b = false).
Proof.
  intros Hm s. pose proof (host_reaches_sound m Hm) as Hs. fold s in Hs.
  exists (parameterSet_has s v). split; [done|]. split; [split|].
  - intros Hv.
    destruct (parameterSet_has_closure _ _ Hs Hv) as (l & g & u & -> & Hl).
    by exists l, g, u.
  - intros (l & g & u & -> & Hl). by eapply closure_in_parameterSet.
  - intros l len -> Hl. simpl. apply bool_decide_eq_false.
    rewrite (Hs l), Hl. simpl. tauto.
Qed.

(** index.js accepts what [makeParameter] returns. *)
Lemma marker_check_accepts_parameters initialValue guard v h h' :
  SymbolVariant.makeParameter initialValue guard h = (Normal v, h') ->
  SymbolVariant.isParameter v h' = (Normal true, h').
Proof.
  unfold SymbolVariant.makeParameter.
  destruct (SymbolVariant.checked_guard h guard) as [g|e]; [|done].
  destruct (g initialValue) as [w|e]; [|done].
  intros [= <- <-]. unfold SymbolVariant.isParameter.
  rewrite (list_lookup_middle h) by reflexivity. simpl.
  rewrite lookup_singleton_eq. unfold SymbolVariant.call.
  rewrite (lookup_app_r h) by lia.
  replace (S (length h) - length h) with 1 by lia. reflexivity.
Qed.

(** index.js rejects a function that has no marker property. *)
Lemma marker_check_rejects_plain_functions h l len body :
  h !! l = Some (SymbolVariant.Function len body ∅) ->
  SymbolVariant.isParameter (VRef l) h = (Normal false, h).
Proof.
  intros Hl. unfold SymbolVariant.isParameter. rewrite Hl. simpl.
  by rewrite lookup_empty.
Qed.

(** C6, on index.js. [fake] is a function the host built and then copied
    the properties of a parameter to; it was not built by [makeParameter]
    (the heap holds a [Function] at its address), yet [isParameter(fake)] is
    [true]. With a marker property that holds a number, [isParameter]
    throws. *)
Theorem marker_check_is_forgeable :
  (let '(fake, h) := SymbolVariant.forge [] in
   fake = Normal (VRef 2)
   /\ (exists body own, h !! 2 = Some (SymbolVariant.Function 0 body own))
   /\ fst (SymbolVariant.isParameter (VRef 2) h) = Normal true)
  /\ (let '(fake, h) := SymbolVariant.forge_not_callable [] in
      fake = Normal (VRef 2)
      /\ fst (SymbolVariant.isParameter (VRef 2) h)
         = Throw (TypeError "is not a function")).
Proof.
  split.
  - vm_compute. split; [done|]. split; [eauto | done].
  - vm_compute. done.
Qed.


(** * Part III: further properties of the code *)

(** ** [makeParameter] *)

(** A guard argument that is given, is not [undefined] and is not a
    function of length 1 makes [makeParameter] throw the [TypeError] of
    index.ts:60 before the guard is called: the state is the one it started
    in, with no new parameter and no guard application. A parameter is such
    an argument, its length being 0. *)
Theorem makeParameter_rejects_invalid_guard s initialValue ga :
  guard_value ga <> VUndefined ->
  function_of_length 1 s (guard_value ga) = false ->
  makeParameter initialValue (Some ga) s
  = (Throw (TypeError "Expected guard to be a function of one argument"), s)
  /\ (forall l, is_closure (heap s !! l) ->
                function_of_length 1 s (VRef l) = false).
Proof.
  intros Hdef Hlen. split.
  - rewrite makeParameter_unfold. unfold run, checked_guard.
    destruct (guard_value ga) eqn:Hgv; try done;
      unfold bind, isGuard; simpl; by rewrite Hlen.
  - intros l Hl. unfold function_of_length, typeof_function,
      function_length.
    by destruct (heap s !! l) as [[g u| |]|].
Qed.

Lemma makeParameter_rejects_invalid_guard_witness :
  let s := one_parameter (VNum 1) default_guard in
  makeParameter (VStr "") (Some {| guard_value := VRef 2;
                                   guard_call := default_guard |}) s
  = (Throw (TypeError "Expected guard to be a function of one argument"), s)
  /\ (forall l, is_closure (heap s !! l) ->
                function_of_length 1 s (VRef l) = false).
Proof.
  intros s.
  apply (makeParameter_rejects_invalid_guard s (VStr "")
           {| guard_value := VRef 2; guard_call := default_guard |}).
  - discriminate.
  - reflexivity.
Defined.

(** With the guard omitted, or given as [undefined], [makeParameter] keeps
    the initial value as it is: the call succeeds in every state, the new
    parameter returns [initialValue], [isParameter] holds of it, and it
    passes the check of a thunk. *)
Theorem makeParameter_default_guard s initialValue gc guard :
  guard = None \/ guard = Some {| guard_value := VUndefined; guard_call := gc |} ->
  exists p s',
    makeParameter initialValue guard s = (Normal p, s')
    /\ p = VRef (length (heap s))
    /\ invoke p [] s' = (Normal initialValue, s')
    /\ isParameter p s' = (Normal true, s')
    /\ isThunk p s' = (Normal true, s').
Proof.
  intros Hguard. exists (VRef (length (heap s))).
  eexists. rewrite makeParameter_unfold.
  assert (run (checked_guard guard) s = Normal default_guard) as ->
    by (by destruct Hguard as [-> | ->]).
  simpl. split; [reflexivity|]. split; [done|].
  assert (heap (made (length (heap s)) default_guard initialValue
                  initialValue s) !! length (heap s)
          = Some (Closure default_guard initialValue)) as Hl.
  { simpl. by apply list_lookup_middle. }
  split; [by eapply parameter_get|]. split.
  - unfold isParameter. simpl. rewrite bool_decide_eq_true_2; [done|].
    set_solver.
  - unfold isThunk, function_of_length, typeof_function, function_length.
    by rewrite Hl.
Qed.

Lemma makeParameter_default_guard_witness :
  exists p s',
    makeParameter (VNum 42) None initial_state = (Normal p, s')
    /\ p = VRef (length (heap initial_state))
    /\ invoke p [] s' = (Normal (VNum 42), s')
    /\ isParameter p s' = (Normal true, s')
    /\ isThunk p s' = (Normal true, s').
Proof.
  apply (makeParameter_default_guard initial_state (VNum 42) default_guard
           None).
  by left.
Defined.

(** A parameter that [makeParameter] returns is new: from a sound state,
    the value returned was not a parameter before the call, and every
    object that was in the heap is left as it was, so that the parameters
    that existed keep their values and stay parameters. *)
Theorem makeParameter_is_fresh s initialValue guard p s' :
  sound s ->
  makeParameter initialValue guard s = (Normal p, s') ->
  parameterSet_has s p = false
  /\ parameterSet_has s' p = true
  /\ (forall l o, heap s !! l = Some o -> heap s' !! l = Some o)
  /\ (forall q, parameterSet_has s q = true -> parameterSet_has s' q = true).
Proof.
  intros Hs. rewrite makeParameter_unfold.
  destruct (run (checked_guard guard) s) as [g|e]; [|done]. simpl.
  destruct (g initialValue) as [w|e]; [|done].
  intros [= <- <-]. split; [|split; [|split]].
  - simpl. apply bool_decide_eq_false. rewrite (Hs (length (heap s))).
    rewrite lookup_ge_None_2 by lia. simpl. tauto.
  - simpl. apply bool_decide_eq_true. set_solver.
  - intros l o Hl. simpl. by apply lookup_app_l_Some.
  - intros q Hq. destruct q as [| | | | | | | |l]; try done. simpl in *.
    apply bool_decide_eq_true in Hq. apply bool_decide_eq_true. set_solver.
Qed.

Lemma makeParameter_is_fresh_witness :
  let s := one_parameter (VNum 1) default_guard in
  let s' := exec (makeParameter (VStr "a") None) s in
  parameterSet_has s (VRef 3) = false
  /\ parameterSet_has s' (VRef 3) = true
  /\ (forall l o, heap s !! l = Some o -> heap s' !! l = Some o)
  /\ (forall q, parameterSet_has s q = true -> parameterSet_has s' q = true).
Proof.
  intros s s'.
  apply (makeParameter_is_fresh s (VStr "a") None (VRef 3) s').
  - apply one_parameter_sound.
  - reflexivity.
Defined.

(** ** The parameter function *)

(** Setting and reading: a call [p(v)] that the guard accepts returns the
    guard's result, the next [p()] returns it too, and the call changes
    nothing but the value of [p]: the other objects of the heap and
    [parameterSet] are as they were. A second call [p(v')] replaces the
    value: the last accepted value is the one read. *)
Theorem set_then_get s l g u v w v' w' :
  heap s !! l = Some (Closure g u) ->
  g v = Normal w ->
  g v' = Normal w' ->
  let s1 := exec (parameter l [v]) s in
  let s2 := exec (parameter l [v']) s1 in
  run (parameter l [v]) s = Normal w
  /\ parameter l [] s1 = (Normal w, s1)
  /\ parameter l [] s2 = (Normal w', s2)
  /\ parameterSet s2 = parameterSet s
  /\ (forall l', l' <> l -> heap s2 !! l' = heap s !! l').
Proof.
  intros Hl Hv Hv' s1 s2.
  assert (l < length (heap s)) as Hlt by (by eapply lookup_lt_Some).
  assert (s1 = store l (Closure g w) (record_call l v s)) as Hs1.
  { unfold s1, exec. by erewrite parameter_set_ok. }
  assert (heap s1 !! l = Some (Closure g w)) as Hl1.
  { rewrite Hs1. by apply lookup_store_eq. }
  assert (s2 = store l (Closure g w') (record_call l v' s1)) as Hs2.
  { unfold s2, exec. by erewrite parameter_set_ok. }
  assert (heap s2 !! l = Some (Closure g w')) as Hl2.
  { rewrite Hs2. apply lookup_store_eq. simpl. by eapply lookup_lt_Some. }
  split; [unfold run; by erewrite parameter_set_ok|].
  split; [by eapply parameter_get|]. split; [by eapply parameter_get|].
  split; [by rewrite Hs2, Hs1|].
  intros l' Hne. rewrite Hs2, Hs1. simpl.
  by rewrite !list_lookup_insert_ne by done.
Qed.

Lemma set_then_get_witness :
  let s := one_parameter (VStr "apple") default_guard in
  let s1 := exec (parameter 1 [VStr "orange"]) s in
  let s2 := exec (parameter 1 [VStr "pear"]) s1 in
  run (parameter 1 [VStr "orange"]) s = Normal (VStr "orange")
  /\ parameter 1 [] s1 = (Normal (VStr "orange"), s1)
  /\ parameter 1 [] s2 = (Normal (VStr "pear"), s2)
  /\ parameterSet s2 = parameterSet s
  /\ (forall l', l' <> 1 -> heap s2 !! l' = heap s !! l').
Proof.
  intros s.
  apply (set_then_get s 1 default_guard (VStr "apple")
           (VStr "orange") (VStr "orange") (VStr "pear") (VStr "pear"));
    reflexivity.
Defined.

(** ** [isParameter] *)

(** A parameter stays a parameter: nothing is ever removed from
    [parameterSet]. Whatever host code runs ([makeParameter], calls of
    parameters, [parameterize] with host thunks, [try]/[catch]/[finally],
    new functions and objects), from a state where [parameterSet] holds
    exactly the parameters, a value of which [isParameter] held before
    still passes it afterwards, and still is a parameter closure. *)
Theorem parameter_stays_parameter {A} (m : M A) s v :
  host m ->
  sound s ->
  parameterSet_has s v = true ->
  parameterSet_has (exec m s) v = true
  /\ exists l g u, v = VRef l /\ heap (exec m s) !! l = Some (Closure g u).
Proof.
  intros Hm Hs Hv.
  destruct (parameterSet_has_closure _ _ Hs Hv) as (l & g & u & -> & Hl).
  destruct (host_disciplined m Hm s) as [Hkept Hsound].
  destruct (Hkept _ _ _ Hl) as [u' Hl'].
  split; [|by exists l, g, u'].
  by eapply closure_in_parameterSet; [apply Hsound|].
Qed.

Lemma parameter_stays_parameter_witness :
  let s := one_parameter (VNum 1) default_guard in
  let m := parameterize (VArray [VArray [VRef 1; VNum 2]]) failing_thunk in
  parameterSet_has (exec m s) (VRef 1) = true
  /\ exists l g u,
       VRef 1 = VRef l /\ heap (exec m s) !! l = Some (Closure g u).
Proof.
  intros s m.
  apply (parameter_stays_parameter m s (VRef 1)).
  - apply host_parameterize, host_throw.
  - apply one_parameter_sound.
  - reflexivity.
Defined.

Lemma isParameter_iff_built_witness :
  let m := new_function 1 ;;; makeParameter (VNum 1) None in
  let s := exec m initial_state in
  exists b,
    isParameter (VRef 0) s = (Normal b, s)
    /\ (b = true <-> built_by_makeParameter s (VRef 0))
    /\ (forall l len, VRef 0 = VRef l -> heap s !! l = Some (Function len) ->
                      b = false).
Proof.
  intros m.
  apply (isParameter_iff_built m (VRef 0)).
  apply host_bind; [apply host_new_function | intros _].
  apply host_makeParameter.
Defined.

Lemma marker_check_accepts_parameters_witness :
  let '(p, h) := SymbolVariant.makeParameter (VNum 1) None [] in
  SymbolVariant.isParameter (VRef 0) h = (Normal true, h).
Proof.
  apply (marker_check_accepts_parameters (VNum 1) None (VRef 0) []).
  reflexivity.
Defined.

(** ** The loops of [parameterize] *)

Lemma last_bound_not_listed pairs l :
  l ∉ listed pairs -> last_bound pairs l = None.
Proof.
  induction pairs as [|pr rest IH]; [done|]. simpl.
  intros Hl. apply not_elem_of_cons in Hl as [Hne Hl].
  rewrite IH by done. by rewrite decide_False by done.
Qed.

Lemma rebind_app pairs1 pairs2 s :
  rebind (pairs1 ++ pairs2) s = (rebind pairs1 ;;; rebind pairs2) s.
Proof.
  revert s. induction pairs1 as [|pr rest IH]; intros s; [done|].
  simpl. unfold bind.
  destruct (invoke (item pr 0) [item pr 1] s) as [[w|e] s1]; [|done].
  rewrite IH. done.
Qed.

Lemma parameter_frame l0 args l s :
  l <> l0 -> heap (exec (parameter l0 args) s) !! l = heap s !! l.
Proof.
  intros Hne. unfold exec.
  destruct (heap s !! l0) as [[g u| |]|] eqn:Hl0.
  2-4: by rewrite parameter_no_closure by (rewrite Hl0; simpl; tauto).
  destruct args as [|x rest]; [by erewrite parameter_get|].
  destruct (g x) as [w|e] eqn:Hg.
  - erewrite parameter_set_ok by done. simpl.
    by rewrite list_lookup_insert_ne by done.
  - by erewrite parameter_set_throw.
Qed.

Lemma rebind_frame pairs l s :
  l ∉ listed pairs -> heap (exec (rebind pairs) s) !! l = heap s !! l.
Proof.
  revert s. induction pairs as [|pr rest IH]; intros s Hl; [done|].
  apply not_elem_of_cons in Hl as [Hne Hl].
  assert (heap (exec (invoke (item pr 0) [item pr 1]) s) !! l = heap s !! l)
    as Hfirst.
  { destruct (item pr 0) as [| | | | | | | |l0]; try done.
    simpl. by apply parameter_frame. }
  unfold exec in *. simpl. unfold bind.
  destruct (invoke (item pr 0) [item pr 1] s) as [[w|e] s1]; simpl in *;
    [|done].
  by rewrite IH.
Qed.

Lemma restore_frame originalValues l s :
  l ∉ originalValues.*1 ->
  heap (exec (restore originalValues) s) !! l = heap s !! l.
Proof.
  revert s. induction originalValues as [|[p v] rest IH]; intros s Hl;
    [done|].
  simpl in Hl. apply not_elem_of_cons in Hl as [Hne Hl].
  pose proof (parameter_frame p [v] l s Hne) as Hfirst.
  unfold exec in *. simpl. unfold bind.
  destruct (parameter p [v] s) as [[w|e] s1]; simpl in *; [|done].
  by rewrite IH.
Qed.

Lemma snapshot_keys parameters :
  forall originalValues s ov s' k,
    snapshot parameters originalValues s = (Normal ov, s') ->
    k ∈ ov.*1 -> k ∈ originalValues.*1 \/ k ∈ listed parameters.
Proof.
  induction parameters as [|pr rest IH]; intros acc s ov s' k Hrun Hk.
  - injection Hrun as <- <-. by left.
  - simpl in Hrun. unfold bind, isParameter in Hrun.
    destruct (parameterSet_has s (item pr 0)); [|done].
    destruct (invoke (item pr 0) [] s) as [[v|e] s1]; [|done].
    destruct (IH _ _ _ _ _ Hrun Hk) as [Hacc|Hrest].
    + apply map_set_keys in Hacc as [->|Hacc]; [|by left].
      right. simpl. by left.
    + right. simpl. by right.
Qed.

Lemma rebind_accepted pairs :
  forall s,
    (forall pr, pr ∈ pairs ->
       exists l g c w, item pr 0 = VRef l
                       /\ heap s !! l = Some (Closure g c)
                       /\ g (item pr 1) = Normal w) ->
    exists s_b,
      rebind pairs s = (Normal tt, s_b)
      /\ parameterSet s_b = parameterSet s
      /\ guard_calls s_b = reverse (bound_calls pairs) ++ guard_calls s
      /\ (forall l g u,
            l ∈ listed pairs -> heap s !! l = Some (Closure g u) ->
            exists v w, last_bound pairs l = Some v
                        /\ g v = Normal w
                        /\ heap s_b !! l = Some (Closure g w)).
Proof.
  induction pairs as [|pr rest IH]; intros s Hok.
  { exists s. split; [done|]. split; [done|]. split; [done|].
    intros l g u Hl. by apply elem_of_nil in Hl. }
  destruct (Hok pr) as (l0 & g0 & c0 & w0 & Hitem & Hl0 & Hg0); [by left|].
  assert (l0 < length (heap s)) as Hlt by (by eapply lookup_lt_Some).
  set (s1 := store l0 (Closure g0 w0) (record_call l0 (item pr 1) s)).
  assert (heap s1 !! l0 = Some (Closure g0 w0)) as Hs1l0
    by (by apply lookup_store_eq).
  destruct (IH s1) as (s_b & Hrun & Hset & Htrace & Hvals).
  { intros pr' Hpr'.
    destruct (Hok pr') as (l & g & c & w & Hitem' & Hl & Hg); [by right|].
    destruct (decide (l = l0)) as [->|Hne].
    - rewrite Hl0 in Hl. injection Hl as <- <-.
      by exists l0, g0, w0, w.
    - exists l, g, c, w. split; [done|]. split; [|done].
      unfold s1. simpl. by rewrite list_lookup_insert_ne by done. }
  exists s_b. split; [|split; [|split]].
  - simpl. rewrite Hitem. simpl. unfold bind.
    erewrite parameter_set_ok by done. exact Hrun.
  - by rewrite Hset.
  - rewrite Htrace. simpl. rewrite Hitem. simpl.
    by rewrite reverse_cons, <- app_assoc.
  - intros l g u Hl Hlu. simpl.
    destruct (decide (l ∈ listed rest)) as [Hin|Hnin].
    + assert (exists u', heap s1 !! l = Some (Closure g u')) as [u' Hl1].
      { destruct (decide (l = l0)) as [->|Hne].
        - rewrite Hl0 in Hlu. injection Hlu as <- <-. eauto.
        - exists u. unfold s1. simpl.
          by rewrite list_lookup_insert_ne by done. }
      destruct (Hvals _ _ _ Hin Hl1) as (v & w & Hlast & Hgv & Hlb).
      exists v, w. by rewrite Hlast.
    + simpl in Hl. apply elem_of_cons in Hl as [->|Hl]; [|done].
      rewrite Hitem in *. simpl in *.
      rewrite Hl0 in Hlu. injection Hlu as <- <-.
      exists (item pr 1), w0. rewrite last_bound_not_listed by done.
      rewrite decide_True by done. split; [done|]. split; [done|].
      pose proof (rebind_frame rest l0 s1 Hnin) as Hframe.
      unfold exec in Hframe. rewrite Hrun in Hframe. simpl in Hframe.
      by rewrite Hframe.
Qed.

Lemma accepted_bindings_are_calls s pairs :
  sound s -> all_parameters s pairs = true -> bindings_accepted s pairs ->
  forall pr, pr ∈ pairs ->
    exists l g c w, item pr 0 = VRef l
                    /\ heap s !! l = Some (Closure g c)
                    /\ g (item pr 1) = Normal w.
Proof.
  intros Hs Hall Hacc pr Hpr.
  unfold all_parameters in Hall. rewrite forallb_forall in Hall.
  specialize (Hall pr). rewrite <- list_elem_of_In in Hall.
  destruct (parameterSet_has_closure _ _ Hs (Hall Hpr))
    as (l & g & c & Hitem & Hl).
  destruct (Hacc pr g c Hpr) as [w Hw]; [by rewrite Hitem|].
  by exists l, g, c, w.
Qed.

(** The loop of index.ts:127-129 on bindings whose values the guards
    accept: it ends normally, calls the setters in the order of the
    bindings and nothing else, and leaves every listed parameter holding
    its guard's result on the last value bound to it, so that of two pairs
    for one parameter the later wins. Parameters that are not listed are
    left as they were. *)
Theorem rebind_last_binding_wins s pairs :
  sound s ->
  all_parameters s pairs = true ->
  bindings_accepted s pairs ->
  exists s_b,
    rebind pairs s = (Normal tt, s_b)
    /\ guard_calls s_b = reverse (bound_calls pairs) ++ guard_calls s
    /\ (forall l, l ∉ listed pairs -> heap s_b !! l = heap s !! l)
    /\ (forall l g u,
          l ∈ listed pairs -> heap s !! l = Some (Closure g u) ->
          exists v w, last_bound pairs l = Some v
                      /\ g v = Normal w
                      /\ parameter l [] s_b = (Normal w, s_b)).
Proof.
  intros Hs Hall Hacc.
  destruct (rebind_accepted pairs s
              (accepted_bindings_are_calls _ _ Hs Hall Hacc))
    as (s_b & Hrun & _ & Htrace & Hvals).
  exists s_b. split; [done|]. split; [done|]. split.
  - intros l Hl. pose proof (rebind_frame pairs l s Hl) as Hframe.
    unfold exec in Hframe. by rewrite Hrun in Hframe.
  - intros l g u Hl Hlu.
    destruct (Hvals _ _ _ Hl Hlu) as (v & w & Hlast & Hgv & Hlb).
    exists v, w. split; [done|]. split; [done|]. by eapply parameter_get.
Qed.

Lemma rebind_last_binding_wins_witness :
  let s := two_parameters (VNum 1) (VNum 10) successor_guard default_guard in
  let pairs := [VArray [VRef 1; VNum 5]; VArray [VRef 3; VStr "x"];
                VArray [VRef 1; VNum 7]] in
  exists s_b,
    rebind pairs s = (Normal tt, s_b)
    /\ guard_calls s_b = reverse (bound_calls pairs) ++ guard_calls s
    /\ (forall l, l ∉ listed pairs -> heap s_b !! l = heap s !! l)
    /\ (forall l g u,
          l ∈ listed pairs -> heap s !! l = Some (Closure g u) ->
          exists v w, last_bound pairs l = Some v
                      /\ g v = Normal w
                      /\ parameter l [] s_b = (Normal w, s_b)).
Proof.
  intros s pairs.
  apply (rebind_last_binding_wins s pairs).
  - apply two_parameters_sound.
  - reflexivity.
  - intros pr g c Hpr Hl.
    repeat (apply elem_of_cons in Hpr as [->|Hpr]);
      [| | |by apply elem_of_nil in Hpr];
      vm_compute in Hl; injection Hl as <- <-; eexists; reflexivity.
Defined.

(** ** [parameterize] as a whole *)

(** The outcome of [parameterize] is the outcome of the thunk run under the
    bindings. For arguments that pass the checks, a thunk that keeps the
    guards of existing parameters, and guards that accept the bound values
    and the values held before the call: the thunk runs in the state the
    rebinding loop leaves, where every listed parameter returns its guard's
    result on the last value bound to it; whether the thunk returns or
    throws, [parameterize] ends the same way, with the same result or
    exception; and every listed parameter, with guard [g] and pre-call
    value [u], returns [g(u)] afterwards. *)
Theorem parameterize_runs_thunk_under_bindings s pairs thunk r s' :
  sound s ->
  preconditions s (VArray pairs) thunk = true ->
  stable (thunk_call thunk) ->
  bindings_accepted s pairs ->
  held_accepted s pairs ->
  parameterize (VArray pairs) thunk s = (r, s') ->
  exists s_b s1,
    rebind pairs s = (Normal tt, s_b)
    /\ thunk_call thunk s_b = (r, s1)
    /\ restore (snapshot_of s pairs []) s1 = (Normal tt, s')
    /\ forall l g u,
         l ∈ listed pairs -> heap s !! l = Some (Closure g u) ->
         (exists v w, last_bound pairs l = Some v
                      /\ g v = Normal w
                      /\ parameter l [] s_b = (Normal w, s_b))
         /\ (exists w, g u = Normal w
                       /\ parameter l [] s' = (Normal w, s')).
Proof.
  intros Hs Hpre Hth Hacc Hheld Hrun.
  pose proof (preconditions_all_parameters _ _ _ Hpre) as Hall.
  destruct (rebind_accepted pairs s
              (accepted_bindings_are_calls _ _ Hs Hall Hacc))
    as (s_b & Hreb & _ & _ & Hvals).
  destruct (parameterize_outcome _ _ _ _ _ Hs Hpre Hth Hrun)
    as (r1 & s1 & r2 & Hbody & Hres & Hkept & Hr).
  unfold bind in Hbody. rewrite Hreb in Hbody.
  pose proof (restore_snapshot _ _ _ _ _ Hs Hall Hkept Hres) as Hspec.
  destruct r2 as [[]|e'].
  2:{ destruct Hspec as (l & g & u & Hl & Hlu & Hthrow).
      destruct (Hheld _ _ _ Hl Hlu) as [w Hw]. congruence. }
  subst r1. destruct Hspec as [_ Hrestored].
  exists s_b, s1. split; [done|]. split; [done|]. split; [done|].
  intros l g u Hl Hlu. split.
  - destruct (Hvals _ _ _ Hl Hlu) as (v & w & Hlast & Hgv & Hlb).
    exists v, w. split; [done|]. split; [done|]. by eapply parameter_get.
  - destruct (Hrestored _ _ _ Hl Hlu) as (w & Hw & Hl').
    exists w. split; [done|]. by eapply parameter_get.
Qed.

Lemma parameterize_runs_thunk_under_bindings_witness :
  let s := two_parameters (VStr "a") (VNum 0) default_guard default_guard in
  let pairs := [VArray [VRef 1; VStr "z"]; VArray [VRef 3; VNum 9]] in
  let thunk := reading_thunk (VRef 4) (VRef 1) in
  let s' := exec (parameterize (VArray pairs) thunk) s in
  exists s_b s1,
    rebind pairs s = (Normal tt, s_b)
    /\ thunk_call thunk s_b = (Normal (VStr "z"), s1)
    /\ restore (snapshot_of s pairs []) s1 = (Normal tt, s')
    /\ forall l g u,
         l ∈ listed pairs -> heap s !! l = Some (Closure g u) ->
         (exists v w, last_bound pairs l = Some v
                      /\ g v = Normal w
                      /\ parameter l [] s_b = (Normal w, s_b))
         /\ (exists w, g u = Normal w
                       /\ parameter l [] s' = (Normal w, s')).
Proof.
  intros s pairs thunk s'.
  apply (parameterize_runs_thunk_under_bindings s pairs thunk
           (Normal (VStr "z")) s').
  - apply two_parameters_sound.
  - reflexivity.
  - apply disciplined_stable, disciplined_invoke.
  - intros pr g c Hpr Hl.
    repeat (apply elem_of_cons in Hpr as [->|Hpr]);
      [| |by apply elem_of_nil in Hpr];
      vm_compute in Hl; injection Hl as <- <-; eexists; reflexivity.
  - intros l g u Hl Hlu.
    repeat (apply elem_of_cons in Hl as [->|Hl]);
      [| |by apply elem_of_nil in Hl];
      vm_compute in Hlu; injection Hlu as <- <-; eexists; reflexivity.
  - vm_compute. reflexivity.
Defined.

(** [parameterize] leaves alone what is not listed: an object of the heap
    that is not the first item of a pair, and that the thunk leaves as it
    is, is after the call what it was before, whether the call returns or
    throws. Neither the checks nor the three loops touch it. *)
Theorem parameterize_leaves_others s pairs thunk l :
  l ∉ listed pairs ->
  leaves (thunk_call thunk) l ->
  heap (exec (parameterize (VArray pairs) thunk) s) !! l = heap s !! l.
Proof.
  intros Hl Hth. unfold exec, parameterize.
  destruct (forallb isPair pairs); [|done].
  unfold bind at 1. unfold isThunk.
  destruct (function_of_length 0 s (thunk_value thunk)); [|done].
  unfold bind at 1.
  pose proof (snapshot_state pairs [] s) as Hsame. unfold exec in Hsame.
  destruct (snapshot pairs [] s) as [[ov|e] s0] eqn:Hsnap;
    simpl in Hsame; subst s0; [|done].
  assert (l ∉ ov.*1) as Hlov.
  { intros Hin.
    destruct (snapshot_keys _ _ _ _ _ _ Hsnap Hin) as [H|H]; [|done].
    by apply elem_of_nil in H. }
  unfold try_finally.
  assert (heap (exec (rebind pairs ;;; thunk_call thunk) s) !! l
          = heap s !! l) as Hbody.
  { pose proof (rebind_frame pairs l s Hl) as Hreb.
    unfold exec, bind in *.
    destruct (rebind pairs s) as [[[]|e] s1]; simpl in *; [|done].
    specialize (Hth s1). unfold exec in Hth. by rewrite Hth. }
  unfold exec in Hbody.
  destruct ((rebind pairs ;;; thunk_call thunk) s) as [r1 s1].
  pose proof (restore_frame ov l s1 Hlov) as Hres. unfold exec in Hres.
  destruct (restore ov s1) as [[[]|e] s2]; simpl in *; congruence.
Qed.

Lemma parameterize_leaves_others_witness :
  let s := two_parameters (VNum 1) (VNum 10) successor_guard default_guard in
  let pairs := [VArray [VRef 1; VNum 5]] in
  let thunk := {| thunk_value := VRef 4;
                  thunk_call := throw (Thrown (VStr "boom")) |} in
  heap (exec (parameterize (VArray pairs) thunk) s) !! 3 = heap s !! 3.
Proof.
  intros s pairs thunk.
  apply (parameterize_leaves_others s pairs thunk 3).
  - intros Hin. apply list_elem_of_singleton in Hin. discriminate.
  - intros s0. reflexivity.
Defined.

(** A binding that the guard rejects ends the rebinding loop: the pairs
    after it are not applied and the thunk is not called, so that the call
    is the same whatever the thunk does. The exception of the guard is what
    the [try] block ends with, in the state the accepted pairs before it
    and the rejected application left. *)
Theorem rejected_binding_skips_thunk s pre pr post thunk p g c e :
  sound s ->
  preconditions s (VArray (pre ++ pr :: post)) thunk = true ->
  bindings_accepted s pre ->
  item pr 0 = VRef p ->
  heap s !! p = Some (Closure g c) ->
  g (item pr 1) = Throw e ->
  exists s_pre,
    rebind pre s = (Normal tt, s_pre)
    /\ (rebind (pre ++ pr :: post) ;;; thunk_call thunk) s
       = (Throw e, record_call p (item pr 1) s_pre)
    /\ forall thunk',
         thunk_value thunk' = thunk_value thunk ->
         parameterize (VArray (pre ++ pr :: post)) thunk' s
         = parameterize (VArray (pre ++ pr :: post)) thunk s.
Proof.
  intros Hs Hpre Hacc Hitem Hp Hrej.
  pose proof (preconditions_all_parameters _ _ _ Hpre) as Hall.
  assert (all_parameters s pre = true) as Hallpre.
  { unfold all_parameters in *. rewrite forallb_app in Hall.
    by apply andb_true_iff in Hall as [? _]. }
  destruct (rebind_accepted pre s
              (accepted_bindings_are_calls _ _ Hs Hallpre Hacc))
    as (s_pre & Hreb & _ & _ & Hvals).
  assert (exists c', heap s_pre !! p = Some (Closure g c')) as [c' Hp'].
  { destruct (decide (p ∈ listed pre)) as [Hin|Hnin].
    - destruct (Hvals _ _ _ Hin Hp) as (v & w & _ & _ & Hlb). eauto.
    - exists c. pose proof (rebind_frame pre p s Hnin) as Hframe.
      unfold exec in Hframe. rewrite Hreb in Hframe. simpl in Hframe.
      by rewrite Hframe. }
  assert (forall th, (rebind (pre ++ pr :: post) ;;; thunk_call th) s
                     = (Throw e, record_call p (item pr 1) s_pre)) as Hbody.
  { intros th. unfold bind at 1. rewrite rebind_app. unfold bind at 1.
    rewrite Hreb. simpl. rewrite Hitem. simpl. unfold bind.
    by erewrite parameter_set_throw. }
  exists s_pre. split; [done|]. split; [apply Hbody|].
  intros thunk' Hsame.
  rewrite !parameterize_valid; [|done|done|done|].
  2:{ unfold preconditions in *. by rewrite Hsame. }
  unfold try_finally. by rewrite !Hbody.
Qed.

Lemma rejected_binding_skips_thunk_witness :
  let s := two_parameters (VNum 1) (VNum 10) default_guard positive_guard in
  let pre := [VArray [VRef 1; VNum 5]] in
  let pr := VArray [VRef 3; VNum 0] in
  let post := [VArray [VRef 1; VNum 6]] in
  let thunk := {| thunk_value := VRef 4; thunk_call := ret VUndefined |} in
  exists s_pre,
    rebind pre s = (Normal tt, s_pre)
    /\ (rebind (pre ++ pr :: post) ;;; thunk_call thunk) s
       = (Throw (Thrown (VStr "not positive")),
          record_call 3 (item pr 1) s_pre)
    /\ forall thunk',
         thunk_value thunk' = thunk_value thunk ->
         parameterize (VArray (pre ++ pr :: post)) thunk' s
         = parameterize (VArray (pre ++ pr :: post)) thunk s.
Proof.
  intros s pre pr post thunk.
  apply (rejected_binding_skips_thunk s pre pr post thunk
           3 positive_guard (VNum 10) (Thrown (VStr "not positive"))).
  - apply two_parameters_sound.
  - vm_compute. reflexivity.
  - intros pr' g c Hpr Hl. apply list_elem_of_singleton in Hpr. subst pr'.
    vm_compute in Hl. injection Hl as <- <-. eexists. reflexivity.
  - reflexivity.
  - reflexivity.
  - reflexivity.
Defined.

Lemma snapshot_entry_guard s s1 pairs q v gq cq :
  sound s -> all_parameters s pairs = true -> guards_kept s s1 ->
  (q, v) ∈ snapshot_of s pairs [] ->
  heap s1 !! q = Some (Closure gq cq) ->
  heap s !! q = Some (Closure gq v).
Proof.
  intros Hs Hall Hkept Hin Hq1.
  assert (q ∈ listed pairs) as Hql.
  { apply (snapshot_of_keys s). apply list_elem_of_fmap. by exists (q, v). }
  destruct (listed_closure _ _ _ Hs Hall Hql) as (gq' & uq & Hqu).
  destruct (Hkept _ _ _ Hqu) as [cq' Hq1']. rewrite Hq1 in Hq1'.
  injection Hq1' as <- <-.
  apply snapshot_of_held in Hin. unfold held in Hin. rewrite Hqu in Hin.
  by subst v.
Qed.

(** A restoration that throws is final. When the guard of [p] rejects the
    value recorded for [p], the guards of the entries before it having
    accepted theirs, [parameterize] ends with the guard's exception
    whatever the thunk returned or threw, and [p] and every parameter
    recorded after it are left with the values they had when the thunk
    ended: they are not restored. *)
Theorem restoration_failure_is_final s pairs thunk r s' before p u after g e :
  sound s ->
  preconditions s (VArray pairs) thunk = true ->
  stable (thunk_call thunk) ->
  parameterize (VArray pairs) thunk s = (r, s') ->
  snapshot_of s pairs [] = before ++ (p, u) :: after ->
  heap s !! p = Some (Closure g u) ->
  (forall q gq uq,
      (q, uq) ∈ before -> heap s !! q = Some (Closure gq uq) ->
      exists w, gq uq = Normal w) ->
  g u = Throw e ->
  exists r1 s1,
    (rebind pairs ;;; thunk_call thunk) s = (r1, s1)
    /\ r = Throw e
    /\ forall q v, (q, v) ∈ (p, u) :: after -> heap s' !! q = heap s1 !! q.
Proof.
  intros Hs Hpre Hth Hrun Hsplit Hpu Hacc Hrej.
  pose proof (preconditions_all_parameters _ _ _ Hpre) as Hall.
  destruct (parameterize_outcome _ _ _ _ _ Hs Hpre Hth Hrun)
    as (r1 & s1 & r2 & Hbody & Hres & Hkept & Hr).
  exists r1, s1. split; [done|].
  pose proof (snapshot_of_NoDup s pairs) as Hnd.
  pose proof (snapshot_closures _ _ _ Hs Hall Hkept) as Hcl.
  rewrite Hsplit in Hres, Hnd, Hcl.
  rewrite fmap_app, fmap_cons in Hnd, Hcl. simpl in Hnd, Hcl.
  apply NoDup_app in Hnd as (Hnd1 & Hdisj & _).
  rewrite restore_app in Hres. unfold bind in Hres.
  destruct (restore before s1) as [rb sb] eqn:Hb.
  destruct (restore_spec before s1 rb sb Hnd1) as (_ & Hsame & Hspec);
    [|done|].
  { intros l Hl. apply Hcl. apply elem_of_app. by left. }
  destruct rb as [[]|eb].
  2:{ destruct Hspec as (q & v & gq & cq & Hin & Hq & Hthrow).
      assert ((q, v) ∈ snapshot_of s pairs []) as Hqin.
      { rewrite Hsplit. apply elem_of_app. by left. }
      pose proof (snapshot_entry_guard _ _ _ _ _ _ _ Hs Hall Hkept Hqin Hq)
        as Hqs.
      destruct (Hacc _ _ _ Hin Hqs) as [w Hw]. congruence. }
  destruct (Hkept _ _ _ Hpu) as [c Hc].
  assert (p ∉ before.*1) as Hpb.
  { intros Hin. apply (Hdisj p Hin). by left. }
  simpl in Hres. unfold bind in Hres.
  erewrite parameter_set_throw in Hres; [|by rewrite Hsame|done].
  injection Hres as <- <-. split; [done|].
  intros q v Hq. simpl. apply Hsame. intros Hin.
  apply (Hdisj q Hin). apply (list_elem_of_fmap_2 fst) in Hq. exact Hq.
Qed.

Lemma restoration_failure_is_final_witness :
  let s := two_parameters (VNum 1) (VNum 10) predecessor_guard default_guard in
  let pairs := [VArray [VRef 1; VNum 5]; VArray [VRef 3; VNum 20]] in
  let thunk := {| thunk_value := VRef 4; thunk_call := ret (VStr "done") |} in
  let s' := exec (parameterize (VArray pairs) thunk) s in
  exists r1 s1,
    (rebind pairs ;;; thunk_call thunk) s = (r1, s1)
    /\ run (parameterize (VArray pairs) thunk) s
       = Throw (Thrown (VStr "Expected a positive number"))
    /\ forall q v,
         (q, v) ∈ [(1, VNum 0); (3, VNum 10)] ->
         heap s' !! q = heap s1 !! q.
Proof.
  intros s pairs thunk s'.
  apply (restoration_failure_is_final s pairs thunk
           (run (parameterize (VArray pairs) thunk) s) s'
           [] 1 (VNum 0) [(3, VNum 10)] predecessor_guard
           (Thrown (VStr "Expected a positive number"))).
  - apply two_parameters_sound.
  - reflexivity.
  - apply disciplined_stable, disciplined_ret.
  - vm_compute. reflexivity.
  - reflexivity.
  - reflexivity.
  - intros q gq uq Hin. by apply elem_of_nil in Hin.
  - reflexivity.
Defined.

(** A parameter passes the check of a thunk, its length being 0, so that
    [parameterize([[p, v]], p)] reads [p] under the binding: when the guard
    accepts [v] and the value [u] held before, the call returns [g(v)] and
    [p()] is [g(u)] afterwards. *)
Theorem parameter_is_a_thunk s p g u v x w :
  sound s ->
  heap s !! p = Some (Closure g u) ->
  g v = Normal x ->
  g u = Normal w ->
  isThunk (VRef p) s = (Normal true, s)
  /\ exists s',
       parameterize (VArray [VArray [VRef p; v]])
                    (reading_thunk (VRef p) (VRef p)) s
       = (Normal x, s')
       /\ parameter p [] s' = (Normal w, s').
Proof.
  intros Hs Hp Hv Hu.
  assert (function_of_length 0 s (VRef p) = true) as Hth.
  { unfold function_of_length, typeof_function, function_length.
    by rewrite Hp. }
  split; [unfold isThunk; by rewrite Hth|].
  assert (p < length (heap s)) as Hlt by (by eapply lookup_lt_Some).
  set (s1 := store p (Closure g x) (record_call p v s)).
  assert (heap s1 !! p = Some (Closure g x)) as Hp1
    by (by apply lookup_store_eq).
  rewrite (parameterize_single s p g u v x _ (Normal x) s1 x);
    [|done|done|done|done| |done].
  2:{ simpl. by eapply parameter_get. }
  rewrite Hu. eexists. split; [reflexivity|].
  eapply parameter_get. apply lookup_store_eq. simpl.
  by rewrite length_insert.
Qed.

Lemma parameter_is_a_thunk_witness :
  let s := one_parameter (VNum 1) successor_guard in
  isThunk (VRef 1) s = (Normal true, s)
  /\ exists s',
       parameterize (VArray [VArray [VRef 1; VNum 5]])
                    (reading_thunk (VRef 1) (VRef 1)) s
       = (Normal (VNum 6), s')
       /\ parameter 1 [] s' = (Normal (VNum 3), s').
Proof.
  intros s.
  apply (parameter_is_a_thunk s 1 successor_guard (VNum 2) (VNum 5)
           (VNum 6) (VNum 3)).
  - apply one_parameter_sound.
  - reflexivity.
  - reflexivity.
  - reflexivity.
Defined.

(** Bindings of two different parameters can be nested: with guards that
    accept the bound values and the values held before the call, and a body
    that keeps the guards of existing parameters,
    [parameterize([[p, a], [q, b]], body)] and
    [parameterize([[p, a]], () => parameterize([[q, b]], body))] run the
    body in the same state, end with the same result or exception, and
    leave the same heap: the two differ only in the order in which [p] and
    [q] are restored. *)
Theorem nested_bindings_flatten s p q gp gq up uq a b a' b' wp wq fo fi body :
  sound s ->
  p <> q ->
  heap s !! p = Some (Closure gp up) ->
  heap s !! q = Some (Closure gq uq) ->
  function_of_length 0 s fo = true ->
  function_of_length 0 s fi = true ->
  stable body ->
  gp a = Normal a' -> gq b = Normal b' ->
  gp up = Normal wp -> gq uq = Normal wq ->
  let flat :=
    parameterize (VArray [VArray [VRef p; a]; VArray [VRef q; b]])
      {| thunk_value := fo; thunk_call := body |} in
  let nested :=
    parameterize (VArray [VArray [VRef p; a]])
      {| thunk_value := fo;
         thunk_call := parameterize (VArray [VArray [VRef q; b]])
                         {| thunk_value := fi; thunk_call := body |} |} in
  run flat s = run nested s
  /\ heap (exec flat s) = heap (exec nested s)
  /\ parameterSet (exec flat s) = parameterSet (exec nested s).
Proof.
  intros Hs Hpq Hp Hq Hfo Hfi Hbody Ha Hb Hup Huq flat nested.
  assert (p < length (heap s)) as Hpl by (by eapply lookup_lt_Some).
  assert (q < length (heap s)) as Hql by (by eapply lookup_lt_Some).
  set (sA := store p (Closure gp a') (record_call p a s)).
  set (sB := store q (Closure gq b') (record_call q b sA)).
  assert (heap sA !! q = Some (Closure gq uq)) as HqA.
  { unfold sA. simpl. by rewrite list_lookup_insert_ne by done. }
  assert (heap sB !! q = Some (Closure gq b')) as HqB.
  { apply lookup_store_eq. simpl. by rewrite length_insert. }
  assert (heap sB !! p = Some (Closure gp a')) as HpB.
  { unfold sB. simpl. rewrite list_lookup_insert_ne by done.
    by apply list_lookup_insert_eq. }
  destruct (body sB) as [r s1] eqn:Hrun.
  pose proof (Hbody sB) as Hkept. unfold exec in Hkept.
  rewrite Hrun in Hkept. simpl in Hkept.
  destruct (Hkept _ _ _ HpB) as [cp Hp1].
  destruct (Hkept _ _ _ HqB) as [cq Hq1].
  assert (p < length (heap s1)) as Hpl1 by (by eapply lookup_lt_Some).
  assert (q < length (heap s1)) as Hql1 by (by eapply lookup_lt_Some).
  (* the nested call *)
  set (sC := store q (Closure gq wq) (record_call q uq s1)).
  assert (parameterize (VArray [VArray [VRef q; b]])
            {| thunk_value := fi; thunk_call := body |} sA = (r, sC))
    as Hinner.
  { rewrite (parameterize_single sA q gq uq b b' _ r s1 cq);
      [by rewrite Huq|by eapply sound_set|done| |done|exact Hrun|done].
    unfold sA. by erewrite function_of_length_store. }
  assert (heap sC !! p = Some (Closure gp cp)) as HpC.
  { unfold sC. simpl. by rewrite list_lookup_insert_ne by done. }
  assert (nested s
          = (r, store p (Closure gp wp) (record_call p up sC))) as Hnested.
  { unfold nested.
    rewrite (parameterize_single s p gp up a a' _ r sC cp);
      [by rewrite Hup|done|done|done|done|exact Hinner|done]. }
  (* the flat call *)
  set (s1p := store p (Closure gp wp) (record_call p up s1)).
  assert (heap s1p !! q = Some (Closure gq cq)) as Hq1p.
  { unfold s1p. simpl. by rewrite list_lookup_insert_ne by done. }
  assert (flat s
          = (r, store q (Closure gq wq) (record_call q uq s1p))) as Hflat.
  { unfold flat. rewrite parameterize_valid; [|done|].
    2:{ unfold preconditions, all_parameters.
        cbn [forallb isPair length item nth thunk_value].
        rewrite Hfo, (closure_in_parameterSet _ _ _ _ Hs Hp),
          (closure_in_parameterSet _ _ _ _ Hs Hq). reflexivity. }
    cbn [snapshot_of item nth the_ref map_set]. unfold held.
    rewrite Hp, Hq. cbn [map_set]. rewrite decide_False by done.
    cbn [map_set rebind restore invoke item nth thunk_call].
    unfold try_finally, bind.
    erewrite parameter_set_ok by done.
    erewrite parameter_set_ok by done.
    unfold ret. fold sA sB. rewrite Hrun.
    erewrite parameter_set_ok by done. fold s1p.
    erewrite parameter_set_ok by done. done. }
  unfold run, exec. rewrite Hflat, Hnested. simpl.
  split; [done|]. split; [|done].
  by apply list_insert_insert_ne.
Qed.

Lemma nested_bindings_flatten_witness :
  let s := two_parameters (VStr "a") (VNum 1) default_guard successor_guard in
  let body := invoke (VRef 3) [] in
  let flat :=
    parameterize (VArray [VArray [VRef 1; VStr "z"]; VArray [VRef 3; VNum 7]])
      {| thunk_value := VRef 4; thunk_call := body |} in
  let nested :=
    parameterize (VArray [VArray [VRef 1; VStr "z"]])
      {| thunk_value := VRef 4;
         thunk_call := parameterize (VArray [VArray [VRef 3; VNum 7]])
                         {| thunk_value := VRef 5; thunk_call := body |} |} in
  run flat s = run nested s
  /\ heap (exec flat s) = heap (exec nested s)
  /\ parameterSet (exec flat s) = parameterSet (exec nested s).
Proof.
  intros s body.
  apply (nested_bindings_flatten s 1 3 default_guard successor_guard
           (VStr "a") (VNum 2) (VStr "z") (VNum 7) (VStr "z") (VNum 8)
           (VStr "a") (VNum 3) (VRef 4) (VRef 5) body).
  - apply two_parameters_sound.
  - discriminate.
  - reflexivity.
  - reflexivity.
  - reflexivity.
  - reflexivity.
  - apply disciplined_stable, disciplined_invoke.
  - reflexivity.
  - reflexivity.
  - reflexivity.
  - reflexivity.
Defined.

(** ** index.js: the marker property *)

(** In index.js the answer of [isParameter] follows the marker property,
    which is an ordinary own property of the parameter. A call of the
    setter leaves it in place, and the parameter is still recognised; an
    assignment of a primitive value to it makes [isParameter] throw on the
    parameter [makeParameter] returned. *)
Theorem marker_check_follows_the_property initialValue guard p h h1 :
  SymbolVariant.makeParameter initialValue guard h = (Normal p, h1) ->
  (forall x w h2,
      SymbolVariant.call p [x] h1 = (Normal w, h2) ->
      SymbolVariant.call p [] h2 = (Normal w, h2)
      /\ SymbolVariant.isParameter p h2 = (Normal true, h2))
  /\ (forall v,
        (forall l, v <> VRef l) ->
        let h2 := snd (SymbolVariant.set_marker p v h1) in
        SymbolVariant.isParameter p h2
        = (Throw (TypeError "is not a function"), h2)).
Proof.
  unfold SymbolVariant.makeParameter.
  destruct (SymbolVariant.checked_guard h guard) as [g|e]; [|done].
  destruct (g initialValue) as [w0|e]; [|done].
  intros [= <- <-].
  assert (forall o,
            (h ++ [o; SymbolVariant.Method]) !! length h = Some o) as Hp.
  { intros o. by apply list_lookup_middle. }
  assert (forall o,
            (h ++ [o; SymbolVariant.Method]) !! S (length h)
            = Some SymbolVariant.Method) as Hm.
  { intros o. rewrite lookup_app_r by lia.
    by replace (S (length h) - length h) with 1 by lia. }
  assert (forall o o',
            <[length h := o']> (h ++ [o; SymbolVariant.Method])
            = h ++ [o'; SymbolVariant.Method]) as Hins.
  { intros o o'. rewrite insert_app_r_alt by lia.
    by replace (length h - length h) with 0 by lia. }
  split.
  - intros x w h2. unfold SymbolVariant.call at 1. rewrite Hp.
    destruct (g x) as [w'|e]; [|done]. intros [= <- <-].
    rewrite Hins. split.
    + unfold SymbolVariant.call. by rewrite Hp.
    + unfold SymbolVariant.isParameter. rewrite Hp. simpl.
      rewrite lookup_singleton_eq. unfold SymbolVariant.call.
      by rewrite Hm.
  - intros v Hv. unfold SymbolVariant.set_marker. rewrite Hp.
    cbn [snd SymbolVariant.with_own SymbolVariant.own_of]. rewrite Hins.
    unfold SymbolVariant.isParameter. rewrite Hp. simpl.
    rewrite lookup_insert_eq. unfold SymbolVariant.call.
    destruct v; try done. by destruct (Hv l).
Qed.

Lemma marker_check_follows_the_property_witness :
  let h1 := snd (SymbolVariant.makeParameter (VNum 1) None []) in
  (forall x w h2,
      SymbolVariant.call (VRef 0) [x] h1 = (Normal w, h2) ->
      SymbolVariant.call (VRef 0) [] h2 = (Normal w, h2)
      /\ SymbolVariant.isParameter (VRef 0) h2 = (Normal true, h2))
  /\ (forall v,
        (forall l, v <> VRef l) ->
        let h2 := snd (SymbolVariant.set_marker (VRef 0) v h1) in
        SymbolVariant.isParameter (VRef 0) h2
        = (Throw (TypeError "is not a function"), h2)).
Proof.
  intros h1.
  apply (marker_check_follows_the_property (VNum 1) None (VRef 0) [] h1).
  reflexivity.
Defined.

(** ** No bindings *)

(** With no binding, [parameterize] is the call of the thunk: for a second
    argument that passes the check of a thunk, [parameterize([], thunk)]
    ends as the thunk ends, in the state the thunk leaves; nothing is
    recorded, no setter is called and no guard runs besides those the thunk
    runs. With another second argument the call throws and the thunk is
    not called. *)
Theorem parameterize_without_bindings s thunk :
  parameterize (VArray []) thunk s
  = if function_of_length 0 s (thunk_value thunk)
    then thunk_call thunk s
    else (Throw (TypeError "Expected second argument to be a thunk"), s).
Proof.
  unfold parameterize. simpl. unfold bind at 1. unfold isThunk.
  destruct (function_of_length 0 s (thunk_value thunk)); [|done].
  unfold bind at 1. simpl. unfold try_finally, bind, ret.
  destruct (thunk_call thunk s) as [[v|e] s1]; done.
Qed.

(** ** The values held are guard results, in every reachable state *)

Lemma preserves_pure {A} P (m : M A) :
  (forall s, exec m s = s) -> preserves P m.
Proof. intros Hm s. by rewrite Hm. Qed.

Lemma preserves_bind {A B} P (m : M A) (k : A -> M B) :
  preserves P m -> (forall a, preserves P (k a)) -> preserves P (bind m k).
Proof.
  intros Hm Hk s HP. specialize (Hm s HP). unfold exec, bind in *.
  destruct (m s) as [[a|e] s1]; simpl in *; [|done]. by apply Hk.
Qed.

Lemma preserves_try_finally {A} P (body : M A) (fin : M unit) :
  preserves P body -> preserves P fin -> preserves P (try_finally body fin).
Proof.
  intros Hb Hf s HP. specialize (Hb s HP). unfold exec, try_finally in *.
  destruct (body s) as [r s1]; simpl in *.
  specialize (Hf s1 Hb). unfold exec in Hf.
  by destruct (fin s1) as [[[]|e] s2].
Qed.

Lemma preserves_try_catch {A} P (body : M A) (handler : exn -> M A) :
  preserves P body -> (forall e, preserves P (handler e)) ->
  preserves P (try_catch body handler).
Proof.
  intros Hb Hh s HP. specialize (Hb s HP). unfold exec, try_catch in *.
  destruct (body s) as [[a|e] s1]; simpl in *; [done|]. by apply Hh.
Qed.

Lemma validated_parameter l args : preserves validated (parameter l args).
Proof.
  intros s Hv. unfold exec.
  destruct (heap s !! l) as [[g u| |]|] eqn:Hl.
  2-4: by rewrite parameter_no_closure by (rewrite Hl; simpl; tauto).
  destruct args as [|x rest]; [by erewrite parameter_get|].
  destruct (g x) as [w|e] eqn:Hg.
  - erewrite parameter_set_ok by done. intros l' g' u'. simpl.
    destruct (decide (l = l')) as [<-|Hne].
    + rewrite list_lookup_insert_eq by (by eapply lookup_lt_Some).
      intros [= <- <-]. by exists x.
    + rewrite list_lookup_insert_ne by done. apply Hv.
  - erewrite parameter_set_throw by done. exact Hv.
Qed.

Lemma validated_invoke f args : preserves validated (invoke f args).
Proof.
  destruct f; simpl;
    first [apply validated_parameter | by apply preserves_pure].
Qed.

Lemma validated_makeParameter initialValue guard :
  preserves validated (makeParameter initialValue guard).
Proof.
  intros s Hv. unfold exec. rewrite makeParameter_unfold.
  destruct (run (checked_guard guard) s) as [g|e]; [|done]. simpl.
  destruct (g initialValue) as [w|e] eqn:Hg; [|exact Hv].
  intros l g' u. simpl. intros Hl.
  destruct (decide (l < length (heap s))) as [Hlt|Hge].
  - rewrite lookup_app_l in Hl by done. by eapply Hv.
  - assert (l = length (heap s)) as ->.
    { apply lookup_lt_Some in Hl. rewrite length_app in Hl. simpl in Hl.
      lia. }
    rewrite list_lookup_middle in Hl by done. injection Hl as <- <-.
    by exists initialValue.
Qed.

Lemma validated_alloc_other (o : obj) :
  ~ is_closure (Some o) ->
  preserves validated (l <- alloc o ;; ret (VRef l)).
Proof.
  intros Ho s Hv l g u. unfold exec, bind, alloc, ret. simpl. intros Hl.
  destruct (decide (l < length (heap s))) as [Hlt|Hge].
  - rewrite lookup_app_l in Hl by done. by eapply Hv.
  - assert (l = length (heap s)) as ->.
    { apply lookup_lt_Some in Hl. rewrite length_app in Hl. simpl in Hl.
      lia. }
    rewrite list_lookup_middle in Hl by done. injection Hl as ->.
    simpl in Ho. tauto.
Qed.

Lemma validated_parameterize parameters thunk :
  preserves validated (thunk_call thunk) ->
  preserves validated (parameterize parameters thunk).
Proof.
  intros Hth. unfold parameterize.
  destruct parameters; try (by apply preserves_pure).
  destruct (forallb isPair items); [|by apply preserves_pure].
  apply preserves_bind; [by apply preserves_pure|].
  intros [|]; [|by apply preserves_pure].
  apply preserves_bind; [apply preserves_pure, snapshot_state|].
  intros ov. apply preserves_try_finally.
  - apply preserves_bind; [|done].
    induction items as [|pr rest IH]; simpl; [by apply preserves_pure|].
    apply preserves_bind; [apply validated_invoke | intros _; apply IH].
  - induction ov as [|[p v] rest IH]; simpl; [by apply preserves_pure|].
    apply preserves_bind; [apply validated_parameter | intros _; apply IH].
Qed.

(** In every state that host code reaches from the initial one, every
    parameter holds a value that its own guard returned: the cell is
    written by [makeParameter] and by the setter only, and both store what
    the guard returns, in the restoration of [parameterize] as anywhere
    else. *)
Theorem held_values_are_guard_results {A} (m : M A) :
  host m ->
  validated (exec m initial_state)
  /\ forall s, validated s -> validated (exec m s).
Proof.
  intros Hm.
  assert (preserves validated m) as Hpres.
  { induction Hm.
    - by apply preserves_pure.
    - by apply preserves_pure.
    - by apply preserves_bind.
    - by apply preserves_try_catch.
    - by apply preserves_try_finally.
    - apply validated_alloc_other. simpl. tauto.
    - apply validated_alloc_other. simpl. tauto.
    - apply validated_invoke.
    - by apply preserves_pure.
    - apply validated_makeParameter.
    - by apply validated_parameterize. }
  split; [|exact Hpres].
  apply Hpres. intros l g u Hl. simpl in Hl. by rewrite lookup_nil in Hl.
Qed.

Lemma held_values_are_guard_results_witness :
  let m := f <- new_function 1 ;;
           p <- makeParameter (VNum 0)
                  (Some {| guard_value := f;
                           guard_call := successor_guard |}) ;;
           t <- new_function 0 ;;
           parameterize (VArray [VArray [p; VNum 5]])
             {| thunk_value := t; thunk_call := invoke p [VNum 8] |} in
  validated (exec m initial_state)
  /\ forall s, validated s -> validated (exec m s).
Proof.
  intros m. apply (held_values_are_guard_results m).
  apply host_bind; [apply host_new_function | intros f].
  apply host_bind; [apply host_makeParameter | intros p].
  apply host_bind; [apply host_new_function | intros t].
  apply host_parameterize. apply host_invoke.
Defined.
